(** * envguard: reference extraction, manifest collection and reconciliation

    A shallow embedding of the environment-variable scanner of envguard
    ([src/scanner/codeScanner.ts]), its serverless manifest parser
    ([src/parser/serverlessParser.ts]), the known-variable registry
    ([src/constants/knownEnvVars.ts]) and the [scanCommand] driver
    ([src/commands/scan.ts], revision with fallback detection).

    Text is modelled as a list of [ascii] code units (JavaScript strings are
    UTF-16; the code units 0..255 are represented, i.e. the Latin-1 subset).
    JavaScript regular expressions are run by a small backtracking matcher
    written after the ECMAScript pattern semantics ([RegExpBuiltinExec],
    continuation-passing matchers, greedy quantifiers). *)

From Stdlib Require Import String Ascii List Bool Arith Lia.
From Stdlib Require Import Numbers.DecimalString.
Import ListNotations.
Open Scope string_scope.
Open Scope list_scope.
Open Scope nat_scope.
Set Warnings "-register-all".

(* ------------------------------------------------------------------ *)
(** ** Characters *)

Module Chars.

(** JavaScript [\s] and the set stripped by [String.prototype.trim]
    (WhiteSpace and LineTerminator), restricted to code units 0..255. *)
Definition js_space (c : ascii) : bool :=
  match nat_of_ascii c with
  | 9 | 10 | 11 | 12 | 13 | 32 | 160 => true
  | _ => false
  end.

Definition is_upper (c : ascii) : bool :=
  (65 <=? nat_of_ascii c) && (nat_of_ascii c <=? 90).
Definition is_lower (c : ascii) : bool :=
  (97 <=? nat_of_ascii c) && (nat_of_ascii c <=? 122).
Definition is_digit (c : ascii) : bool :=
  (48 <=? nat_of_ascii c) && (nat_of_ascii c <=? 57).
Definition is_underscore (c : ascii) : bool := Ascii.eqb c "_"%char.

(** [[A-Z_]] and [[A-Z0-9_]] *)
Definition name_start (c : ascii) : bool := is_upper c || is_underscore c.
Definition name_char (c : ascii) : bool :=
  is_upper c || is_digit c || is_underscore c.

(** The same classes under the [i] flag.  In non-unicode mode the
    case-insensitive canonicalisation never maps a code unit >= 128 to
    one below 128, so only the ASCII letters are added. *)
Definition name_start_ci (c : ascii) : bool := name_start c || is_lower c.
Definition name_char_ci (c : ascii) : bool := name_char c || is_lower c.

End Chars.
Import Chars.

(* ------------------------------------------------------------------ *)
(** ** Regular expressions *)

Module Regex.

Inductive re : Type :=
| RNil                       (** empty pattern *)
| RChr (c : ascii)           (** a literal code unit *)
| RCls (p : ascii -> bool)   (** a character class *)
| RCat (r1 r2 : re)          (** juxtaposition *)
| RAlt (r1 r2 : re)          (** [r1|r2], left alternative first *)
| RStar (r : re)             (** greedy [r*] *)
| RGrp (n : nat) (r : re)    (** capturing group number [n] *)
| RBol                       (** [^] (no [m] flag) *)
| REol.                      (** [$] (no [m] flag) *)

(** Derived forms: [r+], [r?] (greedy), literal strings and sequences. *)
Definition RPlus (r : re) : re := RCat r (RStar r).
Definition ROpt (r : re) : re := RAlt r RNil.

Fixpoint RStr (s : string) : re :=
  match s with
  | EmptyString => RNil
  | String c s' => RCat (RChr c) (RStr s')
  end.

Fixpoint RSeq (rs : list re) : re :=
  match rs with
  | [] => RNil
  | r :: rs' => RCat r (RSeq rs')
  end.

(** Captures: group number and the [start, end) indices, latest first. *)
Definition caps := list (nat * (nat * nat)).
Definition cont := nat -> caps -> option (nat * caps).

(** The backtracking matcher on the whole input [t] at index [i].
    A star iteration that consumes nothing fails (ECMAScript
    RepeatMatcher); the fuel of the star loop, [S (length t)], is never
    exhausted because each iteration consumes a code unit. *)
Fixpoint m (t : list ascii) (r : re) (k : cont) (i : nat) (cs : caps)
  : option (nat * caps) :=
  match r with
  | RNil => k i cs
  | RChr c =>
      match nth_error t i with
      | Some c' => if Ascii.eqb c c' then k (S i) cs else None
      | None => None
      end
  | RCls p =>
      match nth_error t i with
      | Some c' => if p c' then k (S i) cs else None
      | None => None
      end
  | RCat r1 r2 => m t r1 (m t r2 k) i cs
  | RAlt r1 r2 =>
      match m t r1 k i cs with
      | Some x => Some x
      | None => m t r2 k i cs
      end
  | RStar r1 =>
      (fix loop (fuel : nat) (i : nat) (cs : caps) {struct fuel}
         : option (nat * caps) :=
         match fuel with
         | O => k i cs
         | S f =>
             match m t r1 (fun j cs' => if i <? j then loop f j cs' else None)
                     i cs with
             | Some x => Some x
             | None => k i cs
             end
         end) (S (length t)) i cs
  | RGrp n r1 => m t r1 (fun j cs' => k j ((n, (i, j)) :: cs')) i cs
  | RBol => if i =? 0 then k i cs else None
  | REol => if i =? length t then k i cs else None
  end.

(** Try the pattern at [i], [i+1], ... (a non-sticky [exec]). *)
Fixpoint search (t : list ascii) (r : re) (i fuel : nat)
  : option (nat * nat * caps) :=
  match fuel with
  | O => None
  | S f =>
      match m t r (fun j cs => Some (j, cs)) i [] with
      | Some (j, cs) => Some (i, j, cs)
      | None => search t r (S i) f
      end
  end.

(** [RegExp.prototype.exec] from [lastIndex = li]: the match start, end
    and captures. *)
Definition exec (t : list ascii) (r : re) (li : nat)
  : option (nat * nat * caps) :=
  if length t <? li then None else search t r li (S (length t - li)).

(** [RegExp.prototype.test] on a regex without the [g] flag. *)
Definition test (r : re) (s : list ascii) : bool :=
  match exec s r 0 with Some _ => true | None => false end.

(** The successive matches of [while ((match = re.exec(t)) !== null)] for a
    [g]-flagged regex: [lastIndex] moves to the end of each match.  None of
    the patterns below matches the empty string, so every match advances
    and [S (length t)] rounds suffice. *)
Fixpoint exec_all (t : list ascii) (r : re) (li fuel : nat) : list caps :=
  match fuel with
  | O => []
  | S f =>
      match exec t r li with
      | None => []
      | Some (_, e, cs) => cs :: exec_all t r e f
      end
  end.

Definition matches (t : list ascii) (r : re) : list caps :=
  exec_all t r 0 (S (length t)).

(** [match[n]]: the substring captured by group [n]. *)
Fixpoint cap_lookup (n : nat) (cs : caps) : option (nat * nat) :=
  match cs with
  | [] => None
  | (n', ij) :: cs' => if n =? n' then Some ij else cap_lookup n cs'
  end.

Definition slice (t : list ascii) (a b : nat) : list ascii :=
  firstn (b - a) (skipn a t).

Definition group (t : list ascii) (n : nat) (cs : caps) : option (list ascii) :=
  match cap_lookup n cs with
  | Some (a, b) => Some (slice t a b)
  | None => None
  end.

End Regex.
Import Regex.

(* ------------------------------------------------------------------ *)
(** ** JavaScript [Map] with insertion order *)

Module JsMap.
Section JsMap.
Context {V : Type}.

Definition t := list (string * V).

Definition has (k : string) (mp : t) : bool :=
  existsb (fun p => String.eqb (fst p) k) mp.

Fixpoint get (k : string) (mp : t) : option V :=
  match mp with
  | [] => None
  | (k', v) :: r => if String.eqb k' k then Some v else get k r
  end.

(** [Map.prototype.set]: an existing key keeps its position. *)
Fixpoint set (k : string) (v : V) (mp : t) : t :=
  match mp with
  | [] => [(k, v)]
  | (k', v') :: r => if String.eqb k' k then (k, v) :: r else (k', v') :: set k v r
  end.

End JsMap.
End JsMap.

(* ------------------------------------------------------------------ *)
(** ** String helpers ([split], [trim]) *)

Module JsString.

(** [s.split(sep)] for a one-character separator. *)
Fixpoint split (sep : ascii) (s : list ascii) : list (list ascii) :=
  match s with
  | [] => [[]]
  | c :: r =>
      let rest := split sep r in
      if Ascii.eqb c sep then [] :: rest
      else match rest with
           | [] => [[c]]
           | w :: ws => (c :: w) :: ws
           end
  end.

Fixpoint drop_space (s : list ascii) : list ascii :=
  match s with
  | c :: r => if js_space c then drop_space r else s
  | [] => []
  end.

(** [s.trim()] *)
Definition trim (s : list ascii) : list ascii :=
  rev (drop_space (rev (drop_space s))).

End JsString.

(* ------------------------------------------------------------------ *)
(** ** [CodeScanner.scanFile] *)

Module Scanner.

(** The JavaScript regex sources are quoted in the comments below; a space
    separates [*] from a following [)] there, and [\x22] is the double
    quote. *)

Definition ws : re := RCls js_space.
Definition env_name : re := RCat (RCls name_start) (RStar (RCls name_char)).
(** [(\|\||&&|\?\?|\?)] *)
Definition fallback_op : re :=
  RAlt (RStr "||") (RAlt (RStr "&&") (RAlt (RStr "??") (RStr "?"))).
(** The double quote, written [\x22] in the regex sources below. *)
Definition dquote : ascii := "034"%char.
(** [['\x22]] and [['\x22\]]] *)
Definition quote : re := RCls (fun c => Ascii.eqb c "'"%char || Ascii.eqb c dquote).
Definition quote_or_bracket : re :=
  RCls (fun c => Ascii.eqb c "'"%char || Ascii.eqb c dquote || Ascii.eqb c "]"%char).

(** Pattern 1: [/process\.env\.([A-Z_][A-Z0-9_]* )\s*(\|\||&&|\?\?|\?)/g] *)
Definition processEnvWithFallbackPattern : re :=
  RSeq [RStr "process.env."; RGrp 1 env_name; RStar ws; RGrp 2 fallback_op].

(** Pattern 2: [/if\s*\(\s*!?\s*process\.env\.([A-Z_][A-Z0-9_]* )\s*\)/g] *)
Definition conditionalPattern : re :=
  RSeq [RStr "if"; RStar ws; RChr "("; RStar ws; ROpt (RChr "!"); RStar ws;
        RStr "process.env."; RGrp 1 env_name; RStar ws; RChr ")"].

(** Pattern 3: [/const\s+\{\s*([^}]+)\s*\}\s*=\s*process\.env/g] *)
Definition destructuringWithDefaultPattern : re :=
  RSeq [RStr "const"; RPlus ws; RChr "{"; RStar ws;
        RGrp 1 (RPlus (RCls (fun c => negb (Ascii.eqb c "}"%char))));
        RStar ws; RChr "}"; RStar ws; RChr "="; RStar ws; RStr "process.env"].

(** Pattern 4: [/process\.env\?\.([A-Z_][A-Z0-9_]* )/g] *)
Definition optionalChainingPattern : re :=
  RSeq [RStr "process.env?."; RGrp 1 env_name].

(** Pattern 5: [/process\.env\[['\x22]([A-Z_][A-Z0-9_]* )['\x22\]]\s*(\|\||&&|\?\?|\?)/g] *)
Definition processEnvBracketWithFallbackPattern : re :=
  RSeq [RStr "process.env["; quote; RGrp 1 env_name; quote_or_bracket;
        RStar ws; RGrp 2 fallback_op].

(** Pattern 6: [/process\.env\.([A-Z_][A-Z0-9_]* )/g] *)
Definition basicProcessEnvPattern : re :=
  RSeq [RStr "process.env."; RGrp 1 env_name].

(** Pattern 7: [/process\.env\[['\x22]([A-Z_][A-Z0-9_]* )['\x22\]]/g] *)
Definition basicBracketPattern : re :=
  RSeq [RStr "process.env["; quote; RGrp 1 env_name; quote_or_bracket].

(** [/^[A-Z_][A-Z0-9_]*$/] *)
Definition validNamePattern : re := RSeq [RBol; env_name; REol].

Definition str_of (s : list ascii) : string := string_of_list_ascii s.

Definition envmap := @JsMap.t bool.

(** The loop bodies.  [match[1]] is always defined for these patterns
    (group 1 takes part in every match). *)
Definition set_always (v : bool) (t : list ascii) (mp : envmap) (cs : caps) : envmap :=
  match group t 1 cs with
  | Some n => JsMap.set (str_of n) v mp
  | None => mp
  end.

Definition set_if_absent (v : bool) (t : list ascii) (mp : envmap) (cs : caps) : envmap :=
  match group t 1 cs with
  | Some n => if JsMap.has (str_of n) mp then mp else JsMap.set (str_of n) v mp
  | None => mp
  end.

(** The body of the destructuring loop:
    [match[1].split(',').map(v => v.trim()).forEach(v => {...})]. *)
Definition destructure_one (mp : envmap) (v : list ascii) : envmap :=
  let parts := JsString.split "=" v in
  let varName := JsString.trim (hd [] (JsString.split ":" (hd [] parts))) in
  let hasDefault := 1 <? length parts in
  if test validNamePattern varName then
    if JsMap.has (str_of varName) mp then mp else JsMap.set (str_of varName) hasDefault mp
  else mp.

Definition destructure_body (t : list ascii) (mp : envmap) (cs : caps) : envmap :=
  match group t 1 cs with
  | Some g => fold_left destructure_one (map JsString.trim (JsString.split "," g)) mp
  | None => mp
  end.

Definition run (body : list ascii -> envmap -> caps -> envmap) (p : re)
  (t : list ascii) (mp : envmap) : envmap :=
  fold_left (body t) (matches t p) mp.

(** The [try] block of [scanFile] once [content] has been read. *)
Definition scan_content (t : list ascii) : envmap :=
  let mp := [] in
  let mp := run (set_always true) processEnvWithFallbackPattern t mp in
  let mp := run (set_if_absent true) conditionalPattern t mp in
  let mp := run destructure_body destructuringWithDefaultPattern t mp in
  let mp := run (set_if_absent true) optionalChainingPattern t mp in
  let mp := run (set_always true) processEnvBracketWithFallbackPattern t mp in
  let mp := run (set_if_absent false) basicProcessEnvPattern t mp in
  let mp := run (set_if_absent false) basicBracketPattern t mp in
  mp.

(** A file in the file system: [readFileSync] throws unless it is a
    readable [File]. *)
Inductive fentry : Type :=
| Missing
| Unreadable
| File (contents : string).

Definition filesystem := string -> fentry.

(** [scanFile(filePath)]: the map and the lines written by [console.error]. *)
Definition scanFile (fs : filesystem) (filePath : string) : envmap * list string :=
  match fs filePath with
  | File content => (scan_content (list_ascii_of_string content), [])
  | _ => ([], [("Error scanning file " ++ filePath ++ ":")%string])
  end.

End Scanner.
Import Scanner.

(* ------------------------------------------------------------------ *)
(** ** JavaScript values produced by [yaml.load] *)

Module JsValue.

(** The values js-yaml builds with the (extended) FAILSAFE schema: every
    scalar is a string, sequences are arrays, mappings are plain objects
    (their own properties in property order), the CloudFormation tags
    build objects such as [{ Ref: data }]; an empty node is [null] and an
    empty document [undefined]. *)
Inductive jsval : Type :=
| JUndef
| JNull
| JStr (s : string)
| JArr (xs : list jsval)
| JObj (props : list (string * jsval)).

Definition truthy (v : jsval) : bool :=
  match v with
  | JUndef | JNull => false
  | JStr s => negb (String.eqb s "")
  | JArr _ | JObj _ => true
  end.

(** [typeof v === 'object'] *)
Definition is_object (v : jsval) : bool :=
  match v with
  | JNull | JArr _ | JObj _ => true
  | _ => false
  end.

Fixpoint own (k : string) (ps : list (string * jsval)) : option jsval :=
  match ps with
  | [] => None
  | (k', v) :: r => if String.eqb k' k then Some v else own k r
  end.

(** [v.k] and [v?.k] for the property names the parser reads
    ([provider], [environment], [functions]): none of them exists on
    [Object.prototype], [Array.prototype] or [String.prototype]. *)
Definition get (v : jsval) (k : string) : jsval :=
  match v with
  | JObj ps => match own k ps with Some x => x | None => JUndef end
  | _ => JUndef
  end.

Definition index_key (n : nat) : string := NilEmpty.string_of_uint (Nat.to_uint n).

(** [Object.entries(v)] for an object or an array. *)
Definition entries (v : jsval) : list (string * jsval) :=
  match v with
  | JObj ps => ps
  | JArr xs => combine (map index_key (seq 0 (length xs))) xs
  | _ => []
  end.

Fixpoint join (sep : string) (ss : list string) : string :=
  match ss with
  | [] => ""
  | [s] => s
  | s :: r => (s ++ sep ++ join sep r)%string
  end.

(** [String(v)]; [None] is the [TypeError] it throws.  A plain object with
    an own [toString] property (a YAML mapping with a [toString] key) has
    neither a callable [toString] nor a primitive [valueOf]; an array
    converts through [join(',')], mapping [null]/[undefined] elements to
    the empty string. *)
Fixpoint js_String (v : jsval) : option string :=
  match v with
  | JUndef => Some "undefined"
  | JNull => Some "null"
  | JStr s => Some s
  | JArr xs =>
      let fix elems (xs : list jsval) : option (list string) :=
        match xs with
        | [] => Some []
        | x :: r =>
            match (match x with
                   | JUndef | JNull => Some ""
                   | _ => js_String x
                   end), elems r with
            | Some s, Some ss => Some (s :: ss)
            | _, _ => None
            end
        end in
      option_map (join ",") (elems xs)
  | JObj ps =>
      match own "toString" ps with
      | Some _ => None
      | None => Some "[object Object]"
      end
  end.

End JsValue.
Import JsValue.

(* ------------------------------------------------------------------ *)
(** ** [ServerlessParser.parse] *)

Module ServerlessParser.

Record ServerlessEnvEntry : Type := {
  key : string;
  valueExpression : string;
  isReference : bool;
  source : string
}.

Definition envmap := @JsMap.t ServerlessEnvEntry.

(** The patterns of the private method [isReference]. *)
Definition referencePatterns : list re :=
  [RStr "${ssm:"; RStr "${aws:reference"; RStr "${file("; RStr "${self:custom.";
   RStr "${opt:"; RStr "${env:"; RStr "${cf:"].

(** The private method [isReference] (named apart from the entry field):
    any of the seven unanchored literal patterns occurs. *)
Definition isReference_method (value : string) : bool :=
  existsb (fun p => test p (list_ascii_of_string value)) referencePatterns.

(** [/^[A-Z_][A-Z0-9_]*$/i] *)
Definition validNamePatternCI : re :=
  RSeq [RBol; RCat (RCls name_start_ci) (RStar (RCls name_char_ci)); REol].

Definition isValidEnvVarName (k : string) : bool :=
  test validNamePatternCI (list_ascii_of_string k).

(** Code inside the [try] block either finishes or throws; in both cases
    the map built so far is what [parse] returns. *)
Inductive outcome : Type :=
| Done (mp : envmap)
| Thrown (mp : envmap).

(** [for (const [key, value] of Object.entries(providerEnv))] *)
Fixpoint provider_loop (filePath : string) (es : list (string * jsval)) (mp : envmap)
  : outcome :=
  match es with
  | [] => Done mp
  | (k, value) :: r =>
      if isValidEnvVarName k then
        match js_String value with
        | None => Thrown mp
        | Some valueStr =>
            provider_loop filePath r
              (JsMap.set k {| key := k; valueExpression := valueStr;
                              isReference := isReference_method valueStr;
                              source := filePath |} mp)
        end
      else provider_loop filePath r mp
  end.

(** [for (const [key, value] of Object.entries(funcEnv))] *)
Fixpoint function_env_loop (filePath funcName : string) (es : list (string * jsval))
  (mp : envmap) : outcome :=
  match es with
  | [] => Done mp
  | (k, value) :: r =>
      if isValidEnvVarName k then
        match js_String value with
        | None => Thrown mp
        | Some valueStr =>
            function_env_loop filePath funcName r
              (if JsMap.has k mp then mp
               else JsMap.set k {| key := k; valueExpression := valueStr;
                                   isReference := isReference_method valueStr;
                                   source := (filePath ++ " (function: " ++ funcName ++ ")")%string |} mp)
        end
      else function_env_loop filePath funcName r mp
  end.

(** [for (const [funcName, funcConfig] of Object.entries(functions))] *)
Fixpoint functions_loop (filePath : string) (fns : list (string * jsval)) (mp : envmap)
  : outcome :=
  match fns with
  | [] => Done mp
  | (funcName, funcConfig) :: r =>
      let funcEnv := get funcConfig "environment" in
      if truthy funcEnv && is_object funcEnv then
        match function_env_loop filePath funcName (entries funcEnv) mp with
        | Done mp' => functions_loop filePath r mp'
        | Thrown mp' => Thrown mp'
        end
      else functions_loop filePath r mp
  end.

Definition parse_error (filePath : string) : string :=
  ("Error parsing " ++ filePath ++ ":")%string.

Section Parse.

(** [yaml.load(content, { schema: CF_SCHEMA })]: [None] when it throws. *)
Variable yaml_load : string -> option jsval.

(** [parse(filePath)]: the declarations and the lines written by
    [console.error]. *)
Definition parse (fs : Scanner.filesystem) (filePath : string) : envmap * list string :=
  match fs filePath with
  | Scanner.Missing => ([], [])
  | Scanner.Unreadable => ([], [parse_error filePath])
  | Scanner.File content =>
      match yaml_load content with
      | None => ([], [parse_error filePath])
      | Some doc =>
          if negb (truthy doc) || negb (is_object doc) then ([], [])
          else
            let providerEnv := get (get doc "provider") "environment" in
            let o1 := if truthy providerEnv && is_object providerEnv
                      then provider_loop filePath (entries providerEnv) []
                      else Done [] in
            match o1 with
            | Thrown mp => (mp, [parse_error filePath])
            | Done mp =>
                let functions := get doc "functions" in
                if truthy functions && is_object functions then
                  match functions_loop filePath (entries functions) mp with
                  | Done mp' => (mp', [])
                  | Thrown mp' => (mp', [parse_error filePath])
                  end
                else (mp, [])
            end
      end
  end.

End Parse.

End ServerlessParser.

(* ------------------------------------------------------------------ *)
(** ** Known-variable registry ([src/constants/knownEnvVars.ts]) *)

Module KnownEnvVars.

Definition AWS_PROVIDED_VARS : list string :=
  ["AWS_REGION"; "AWS_DEFAULT_REGION"; "AWS_EXECUTION_ENV";
   "AWS_LAMBDA_FUNCTION_NAME"; "AWS_LAMBDA_FUNCTION_VERSION";
   "AWS_LAMBDA_FUNCTION_MEMORY_SIZE"; "AWS_LAMBDA_LOG_GROUP_NAME";
   "AWS_LAMBDA_LOG_STREAM_NAME"; "AWS_ACCESS_KEY_ID"; "AWS_SECRET_ACCESS_KEY";
   "AWS_SESSION_TOKEN"; "AWS_LAMBDA_RUNTIME_API"; "_HANDLER"; "_X_AMZN_TRACE_ID";
   "LAMBDA_TASK_ROOT"; "LAMBDA_RUNTIME_DIR"; "TZ"].

Definition NODEJS_RUNTIME_VARS : list string :=
  ["NODE_ENV"; "NODE_OPTIONS"; "PATH"; "HOME"; "USER"; "LANG"; "LC_ALL"; "PWD";
   "OLDPWD"; "SHELL"; "TERM"].

Definition CI_CD_VARS : list string :=
  ["CI"; "CONTINUOUS_INTEGRATION"; "GITHUB_ACTIONS"; "GITLAB_CI"; "CIRCLECI";
   "TRAVIS"; "JENKINS_URL"; "BUILDKITE"].

Definition SERVERLESS_FRAMEWORK_VARS : list string :=
  ["IS_OFFLINE"; "SLS_OFFLINE"; "SERVERLESS_STAGE"; "SERVERLESS_REGION"].

Definition TEST_VARS : list string :=
  ["JEST_WORKER_ID"; "VITEST_WORKER_ID"; "MOCHA_COLORS"].

Definition set_has (xs : list string) (v : string) : bool := existsb (String.eqb v) xs.

Definition KNOWN_RUNTIME_VARS : list string :=
  AWS_PROVIDED_VARS ++ NODEJS_RUNTIME_VARS ++ CI_CD_VARS ++
  SERVERLESS_FRAMEWORK_VARS ++ TEST_VARS.

Definition isKnownRuntimeVar (varName : string) : bool :=
  set_has KNOWN_RUNTIME_VARS varName.

(** [getRuntimeVarCategory]: [None] is [null]. *)
Definition getRuntimeVarCategory (varName : string) : option string :=
  if set_has AWS_PROVIDED_VARS varName then Some "AWS Lambda"
  else if set_has NODEJS_RUNTIME_VARS varName then Some "Node.js Runtime"
  else if set_has CI_CD_VARS varName then Some "CI/CD"
  else if set_has SERVERLESS_FRAMEWORK_VARS varName then Some "Serverless Framework"
  else if set_has TEST_VARS varName then Some "Testing"
  else None.
End KnownEnvVars.
Import KnownEnvVars.

(* ------------------------------------------------------------------ *)
(** ** Issues, configuration and the [scan] command *)

Module Scan.

Inductive IssueType : Type := missing | unused | undocumented.
Inductive Severity : Type := error | warning | info.

Record Issue : Type := {
  type : IssueType;
  severity : Severity;
  varName : string;
  details : string;
  locations : option (list string)
}.

(** The usage records [{ locations, hasFallback }] of [scanDirectoryFor*]. *)
Record Usage : Type := {
  usage_locations : list string;
  hasFallback : bool
}.

Definition usagemap := @JsMap.t Usage.

Record EnvGuardConfig : Type := {
  ignoreVars : list string;
  exclude : list string;
  strict : bool;
  config_detectFallbacks : option bool
}.

(** [ConfigLoader.shouldIgnoreVar] *)
Definition shouldIgnoreVar (v : string) (config : EnvGuardConfig) : bool :=
  existsb (String.eqb v) (ignoreVars config).

Definition IssueType_eqb (a b : IssueType) : bool :=
  match a, b with
  | missing, missing | unused, unused | undocumented, undocumented => true
  | _, _ => false
  end.

(** Step 2a of [scanCommand] for one serverless.yml: the issues pushed to
    [allIssues] (the [Logger] output is left out). *)
Definition check_serverless (strictMode detectFallbacks : bool) (config : EnvGuardConfig)
  (serverlessVars : ServerlessParser.envmap) (usedVars : usagemap) : list Issue :=
  let unusedServerlessVars :=
    flat_map (fun '(varName, _) =>
      if negb (JsMap.has varName usedVars) then
        let isIgnored := isKnownRuntimeVar varName || shouldIgnoreVar varName config in
        if strictMode || negb isIgnored then [varName] else []
      else []) serverlessVars in
  let missingFromServerless :=
    flat_map (fun '(varName, usage) =>
      if negb (JsMap.has varName serverlessVars) then
        let isCustomIgnored := shouldIgnoreVar varName config in
        let isRuntimeVar := isKnownRuntimeVar varName in
        if negb strictMode && (isRuntimeVar || isCustomIgnored) then []
        else [(varName, usage)]
      else []) usedVars in
  let unusedIssues :=
    map (fun varName =>
      {| type := unused; severity := info; varName := varName;
         details := "Defined in serverless.yml but never used in code";
         locations := None |}) unusedServerlessVars in
  let errors := filter (fun '(_, u) => negb detectFallbacks || negb (hasFallback u))
                  missingFromServerless in
  let warnings := filter (fun '(_, u) => detectFallbacks && hasFallback u)
                    missingFromServerless in
  let errorIssues :=
    map (fun '(v, u) =>
      {| type := missing; severity := error; varName := v;
         details := if detectFallbacks && hasFallback u
                    then "Used in code with fallback but not defined in serverless.yml"
                    else "Used in code but not defined in serverless.yml";
         locations := Some (usage_locations u) |}) errors in
  let warningIssues :=
    map (fun '(v, u) =>
      {| type := missing; severity := warning; varName := v;
         details := "Used in code with fallback but not defined in serverless.yml";
         locations := Some (usage_locations u) |}) warnings in
  unusedIssues ++ errorIssues ++ warningIssues.

(** The result of [scanCommand]: the returned object, or [process.exit]. *)
Inductive ScanOutcome : Type :=
| Returned (success : bool) (issues : list Issue)
| Exited (code : nat).

Record ScanOptions : Type := {
  ci : bool;
  strict_opt : option bool;
  detectFallbacks_opt : option bool
}.

(** One discovered serverless.yml: its parsed variables and the usage of
    the code files under its directory. *)
Record ServerlessScope : Type := {
  serverlessVars : ServerlessParser.envmap;
  codeUsage : usagemap
}.

(** One discovered .env: the usage under its directory, the names the
    .env parser found in it and in the sibling .env.example. *)
Record EnvScope : Type := {
  allUsedVars : usagemap;
  definedVars : list string;
  exampleVars : list string
}.

Section ScanCommand.

(** [EnvAnalyzer.analyze] (src/analyzer/envAnalyzer.ts is not among the
    sources); the driver is modelled for every analyzer. *)
Variable analyze : usagemap -> list string -> list string -> bool -> list Issue.

(** Step 2b for one .env file: the allowlist filter, then the analyzer. *)
Definition check_env (strictMode detectFallbacks : bool) (config : EnvGuardConfig)
  (sc : EnvScope) : list Issue :=
  let usedVars :=
    filter (fun '(varName, _) =>
      let isCustomIgnored := shouldIgnoreVar varName config in
      let isRuntimeVar := isKnownRuntimeVar varName in
      strictMode || (negb isRuntimeVar && negb isCustomIgnored)) (allUsedVars sc) in
  analyze usedVars (definedVars sc) (exampleVars sc) detectFallbacks.

(** [strictMode] and [detectFallbacks]: CLI options override the config. *)
Definition effectiveStrict (options : ScanOptions) (config : EnvGuardConfig) : bool :=
  match strict_opt options with Some b => b | None => strict config end.

Definition effectiveDetectFallbacks (options : ScanOptions) (config : EnvGuardConfig) : bool :=
  match detectFallbacks_opt options with
  | Some b => b
  | None => match config_detectFallbacks config with Some b => b | None => true end
  end.

(** [allIssues]: step 2a over the serverless.yml files, then step 2b over
    the .env files. *)
Definition allIssues (strictMode detectFallbacks : bool) (config : EnvGuardConfig)
  (envFiles : list EnvScope) (serverlessFiles : list ServerlessScope) : list Issue :=
  flat_map (fun sc => check_serverless strictMode detectFallbacks config
                        (serverlessVars sc) (codeUsage sc)) serverlessFiles ++
  flat_map (check_env strictMode detectFallbacks config) envFiles.

(** [scanCommand(options)] once the configuration is loaded and the
    .env / serverless.yml files are discovered, parsed and their code
    scanned. *)
Definition scanCommand (options : ScanOptions) (config : EnvGuardConfig)
  (envFiles : list EnvScope) (serverlessFiles : list ServerlessScope) : ScanOutcome :=
  let strictMode := effectiveStrict options config in
  let detectFallbacks := effectiveDetectFallbacks options config in
  match envFiles, serverlessFiles with
  | [], [] => Returned false []
  | _, _ =>
      match allIssues strictMode detectFallbacks config envFiles serverlessFiles with
      | [] => Returned true []
      | issues => if ci options then Exited 1 else Returned false issues
      end
  end.

End ScanCommand.

(** Modelled from the spec: [EnvAnalyzer.analyze] (src/analyzer/envAnalyzer.ts
    is missing), steps 1-3 of the reconciliation algorithm: [missing] for a
    used name that is not declared (error unless it has a fallback and
    fallback detection is on), [unused] (info) for a declared name that is
    not used, [undocumented] for a used, declared name absent from the
    example file (info for a guarded use when fallback detection is on,
    warning otherwise). *)
Definition analyze_spec (usage : usagemap) (declared example : list string)
  (detectFallbacks : bool) : list Issue :=
  let has xs v := existsb (String.eqb v) xs in
  flat_map (fun '(v, u) =>
    if has declared v then []
    else [{| type := missing;
             severity := if negb detectFallbacks || negb (hasFallback u) then error else warning;
             varName := v; details := "Used in code but not defined in .env";
             locations := Some (usage_locations u) |}]) usage ++
  flat_map (fun v =>
    if JsMap.has v usage then []
    else [{| type := unused; severity := info; varName := v;
             details := "Defined in .env but never used"; locations := None |}]) declared ++
  flat_map (fun '(v, u) =>
    if has declared v && negb (has example v) then
      [{| type := undocumented;
          severity := if detectFallbacks && hasFallback u then info else warning;
          varName := v; details := "Missing from .env.example";
          locations := Some (usage_locations u) |}]
    else []) usage.

End Scan.
Import Scan.

(* ------------------------------------------------------------------ *)
(** ** Parts of [scanCommand]: the skipped-variable lists, the usage
    aggregation of [scanDirectoryForVars] and the log grouping *)

Module ScanParts.


(** [if (category)]: [null] and the empty string are falsy. *)
Definition category_truthy (category : option string) : option string :=
  match category with
  | Some c => if String.eqb c "" then None else Some c
  | None => None
  end.

(** [skippedRuntimeVars] of step 2a (the [else] branch of the loop over
    [usedVars.entries()]). *)
Definition skippedRuntimeVars (strictMode : bool) (config : EnvGuardConfig)
  (serverlessVars : ServerlessParser.envmap) (usedVars : usagemap) : list (string * string) :=
  flat_map (fun '(varName, _) =>
    if negb (JsMap.has varName serverlessVars) then
      let isCustomIgnored := shouldIgnoreVar varName config in
      let isRuntimeVar := isKnownRuntimeVar varName in
      if negb strictMode && (isRuntimeVar || isCustomIgnored) then
        let category := if isCustomIgnored then Some "Custom (from config)"
                        else getRuntimeVarCategory varName in
        match category_truthy category with
        | Some c => [(varName, c)]
        | None => []
        end
      else []
    else []) usedVars.

(** [skippedVarsInScope] of step 2b. *)
Definition skippedVarsInScope (strictMode : bool) (config : EnvGuardConfig)
  (allUsedVars : usagemap) : list (string * string) :=
  flat_map (fun '(varName, _) =>
    let isCustomIgnored := shouldIgnoreVar varName config in
    let isRuntimeVar := isKnownRuntimeVar varName in
    if strictMode || (negb isRuntimeVar && negb isCustomIgnored) then []
    else
      let category := if isCustomIgnored then Some "Custom (from config)"
                      else getRuntimeVarCategory varName in
      match category_truthy category with
      | Some c => [(varName, c)]
      | None => []
      end) allUsedVars.

(** The body of [for (const [varName, hasFallback] of vars.entries())] in
    [scanDirectoryForVars]: create the entry if absent, then push the
    location and or the flag into it. *)
Definition add_usage (relativePath : string) (envVars : usagemap) (e : string * bool) : usagemap :=
  let '(varName, hf) := e in
  let envVars := if JsMap.has varName envVars then envVars
                 else JsMap.set varName {| usage_locations := []; hasFallback := false |} envVars in
  match JsMap.get varName envVars with
  | Some entry =>
      JsMap.set varName {| usage_locations := usage_locations entry ++ [relativePath];
                           hasFallback := hasFallback entry || hf |} envVars
  | None => envVars
  end.

(** [scanDirectoryForVars(rootDir, targetDir, scanner, excludePatterns)]
    once [glob] has listed the code files [files]; [relative f] is
    [path.relative(rootDir, f)]. *)
Definition scanDirectoryForVars (fs : filesystem) (relative : string -> string)
  (files : list string) : usagemap :=
  fold_left (fun envVars file =>
    fold_left (add_usage (relative file)) (fst (scanFile fs file)) envVars) files [].

(** The body of the loop that builds [grouped] in the log of skipped
    runtime variables. *)
Definition group_step (grouped : @JsMap.t (list string)) (e : string * string)
  : @JsMap.t (list string) :=
  let '(varName, category) := e in
  let grouped := if JsMap.has category grouped then grouped
                 else JsMap.set category [] grouped in
  match JsMap.get category grouped with
  | Some vars => JsMap.set category (vars ++ [varName]) grouped
  | None => grouped
  end.

(** [grouped]: [category -> varNames], from [skippedRuntimeVars]. *)
Definition groupByCategory (skipped : list (string * string)) : @JsMap.t (list string) :=
  fold_left group_step skipped [].

End ScanParts.
Import ScanParts.

(* ------------------------------------------------------------------ *)
(** ** The [CodeScanner] class: constructor, [scan], [scanByDirectory] *)

Module CodeScannerClass.


Definition ALWAYS_EXCLUDE : list string := ["node_modules"; ".git"].
Definition DEFAULT_EXCLUDE : list string := ["dist"; "build"].

(** [[...new Set(xs)]]: first occurrences, in order. *)
Definition set_of_list (xs : list string) : list string :=
  fold_left (fun acc x => if existsb (String.eqb x) acc then acc else acc ++ [x]) xs [].

(** [this.excludePatterns] after [new CodeScanner(rootDir, excludePatterns)]. *)
Definition excludePatterns_of (excludePatterns : list string) : list string :=
  set_of_list (ALWAYS_EXCLUDE ++ excludePatterns).

Fixpoint includes_char (c : ascii) (s : string) : bool :=
  match s with
  | EmptyString => false
  | String c' s' => Ascii.eqb c c' || includes_char c s'
  end.

(** [p.includes('*') ? p : `**/${p}/**`] *)
Definition ignorePattern (p : string) : string :=
  if includes_char "*" p then p else ("**/" ++ p ++ "/**")%string.

Definition ignorePatterns (excludePatterns : list string) : list string :=
  map ignorePattern excludePatterns.

(** The serverless loop of [CodeScanner.scan]: the location is pushed,
    the flag is left alone. *)
Definition add_declaration (location : string) (envVars : usagemap)
  (e : string * ServerlessParser.ServerlessEnvEntry) : usagemap :=
  let '(varName, _) := e in
  let envVars := if JsMap.has varName envVars then envVars
                 else JsMap.set varName {| usage_locations := []; hasFallback := false |} envVars in
  match JsMap.get varName envVars with
  | Some entry =>
      JsMap.set varName {| usage_locations := usage_locations entry ++ [location];
                           hasFallback := hasFallback entry |} envVars
  | None => envVars
  end.

(** [CodeScanner.scan()] once [glob] has listed the code files [files]
    and [findServerlessFiles] the manifests [serverlessFiles]. *)
Definition scan (yaml_load : string -> option jsval) (fs : filesystem)
  (relative : string -> string) (files serverlessFiles : list string) : usagemap :=
  let envVars :=
    fold_left (fun envVars file =>
      fold_left (add_usage (relative file)) (fst (scanFile fs file)) envVars) files [] in
  fold_left (fun envVars file =>
    fold_left (add_declaration (relative file ++ " (serverless config)")%string)
      (fst (ServerlessParser.parse yaml_load fs file)) envVars) serverlessFiles envVars.

(** The body of the inner loop of [scanByDirectory].  [varMap] is the
    object stored in [dirMap]: the mutations through it are written back
    under [fileDir]. *)
Definition add_dir_usage (fileDir relativePath : string)
  (dirMap : @JsMap.t (@JsMap.t (list string))) (e : string * bool)
  : @JsMap.t (@JsMap.t (list string)) :=
  let '(varName, _) := e in
  let dirMap := if JsMap.has fileDir dirMap then dirMap else JsMap.set fileDir [] dirMap in
  match JsMap.get fileDir dirMap with
  | Some varMap =>
      let varMap := if JsMap.has varName varMap then varMap else JsMap.set varName [] varMap in
      match JsMap.get varName varMap with
      | Some locs => JsMap.set fileDir (JsMap.set varName (locs ++ [relativePath]) varMap) dirMap
      | None => JsMap.set fileDir varMap dirMap
      end
  | None => dirMap
  end.

(** [scanByDirectory()] once [glob] has listed the code files [files];
    [dirname f] is [path.dirname(f)]. *)
Definition scanByDirectory (fs : filesystem) (dirname relative : string -> string)
  (files : list string) : @JsMap.t (@JsMap.t (list string)) :=
  fold_left (fun dirMap file =>
    let vars := fst (scanFile fs file) in
    let fileDir := dirname file in
    let relativePath := relative file in
    fold_left (add_dir_usage fileDir relativePath) vars dirMap) files [].

End CodeScannerClass.
Import CodeScannerClass.

(* ------------------------------------------------------------------ *)
(** ** The [glob] ignore lists of [scanCommand] and [scanDirectoryForVars] *)

Module ScanGlobs.

(** The [excludePatterns] [scanCommand] gives to [new CodeScanner]. *)
Definition scanCommand_excludePatterns (config : EnvGuardConfig) : list string :=
  ["node_modules"; "dist"; "build"; ".git"] ++ exclude config.

(** The [ignore] option of the [glob] call in [scanDirectoryForVars]. *)
Definition defaultIgnore : list string :=
  ["**/node_modules/**"; "**/dist/**"; "**/build/**"; "**/.git/**"].

Definition scanDirectory_ignore (excludePatterns : list string) : list string :=
  defaultIgnore ++ map ignorePattern excludePatterns.

End ScanGlobs.
Import ScanGlobs.

(* ------------------------------------------------------------------ *)
(** ** Sample inputs *)

Module Samples.

(** The extractor on a literal text. *)
Definition sc_text (s : string) : Scanner.envmap := scan_content (list_ascii_of_string s).

Definition config0 : EnvGuardConfig :=
  {| ignoreVars := []; exclude := []; strict := false; config_detectFallbacks := None |}.

Definition entry (k v : string) : ServerlessParser.ServerlessEnvEntry :=
  {| ServerlessParser.key := k; ServerlessParser.valueExpression := v;
     ServerlessParser.isReference := false; ServerlessParser.source := "serverless.yml" |}.

Definition used1 : usagemap :=
  [("API_KEY", {| usage_locations := ["handler.js"]; hasFallback := false |});
   ("TIMEOUT", {| usage_locations := ["handler.js"; "lib.js"]; hasFallback := true |});
   ("AWS_REGION", {| usage_locations := ["handler.js"]; hasFallback := false |})].

Definition declared1 : ServerlessParser.envmap :=
  [("STAGE", entry "STAGE" "dev"); ("TZ", entry "TZ" "UTC")].

Definition options0 : ScanOptions :=
  {| ci := true; strict_opt := None; detectFallbacks_opt := None |}.

(** A project with one .env whose variables are all in use and documented. *)
Definition env_ok : EnvScope :=
  {| allUsedVars := [("API_KEY", {| usage_locations := ["a.js"]; hasFallback := false |})];
     definedVars := ["API_KEY"]; exampleVars := ["API_KEY"] |}.

(** A project with one .env missing a used variable. *)
Definition env_missing : EnvScope :=
  {| allUsedVars := [("API_KEY", {| usage_locations := ["a.js"]; hasFallback := false |})];
     definedVars := []; exampleVars := [] |}.

(** js-yaml on a manifest whose provider-level [BAZ] is a mapping with a
    [toString] key, and whose function [f] also declares [BAZ]. *)
Definition manifest_toString : string :=
  "provider:
  environment:
    BAZ:
      toString: x
functions:
  f:
    environment:
      BAZ: fn
".

Definition doc_toString : jsval :=
  JObj [("provider", JObj [("environment", JObj [("BAZ", JObj [("toString", JStr "x")])])]);
        ("functions", JObj [("f", JObj [("environment", JObj [("BAZ", JStr "fn")])])])].

Definition load_toString (c : string) : option jsval :=
  if String.eqb c manifest_toString then Some doc_toString else None.

(** Scenario C: [BAZ] at provider level and, with another value, in
    function [api]; js-yaml builds [doc_C] from [manifest_C]. *)
Definition manifest_C : string :=
  "provider:
  environment:
    BAZ: provider-value
functions:
  api:
    environment:
      BAZ: function-value
".

Definition doc_C : jsval :=
  JObj [("provider", JObj [("environment", JObj [("BAZ", JStr "provider-value")])]);
        ("functions", JObj [("api", JObj [("environment", JObj [("BAZ", JStr "function-value")])])])].

Definition load_C (c : string) : option jsval :=
  if String.eqb c manifest_C then Some doc_C else None.

(** A file system in which every path reads as [s]. *)
Definition fs_const (s : string) : filesystem := fun _ => File s.



End Samples.

(* ------------------------------------------------------------------ *)
(** ** Match semantics of the regular expressions *)

Module RegexSemantics.

(** [mt t r i cs j cs']: [r] matches [t] from index [i] to index [j],
    turning the captures [cs] into [cs'].  This is the relational reading
    of the matcher [m] (each star iteration consumes a code unit). *)

Section Mt.
Variable t : list ascii.

Inductive mt : re -> nat -> caps -> nat -> caps -> Prop :=
| mt_nil i cs : mt RNil i cs i cs
| mt_chr c i cs : nth_error t i = Some c -> mt (RChr c) i cs (S i) cs
| mt_cls p c i cs : nth_error t i = Some c -> p c = true -> mt (RCls p) i cs (S i) cs
| mt_cat r1 r2 i cs j cs1 l cs2 :
    mt r1 i cs j cs1 -> mt r2 j cs1 l cs2 -> mt (RCat r1 r2) i cs l cs2
| mt_altl r1 r2 i cs j cs' : mt r1 i cs j cs' -> mt (RAlt r1 r2) i cs j cs'
| mt_altr r1 r2 i cs j cs' : mt r2 i cs j cs' -> mt (RAlt r1 r2) i cs j cs'
| mt_star0 r i cs : mt (RStar r) i cs i cs
| mt_starS r i cs j cs1 l cs2 :
    mt r i cs j cs1 -> i < j -> mt (RStar r) j cs1 l cs2 -> mt (RStar r) i cs l cs2
| mt_grp n r i cs j cs' : mt r i cs j cs' -> mt (RGrp n r) i cs j ((n, (i, j)) :: cs')
| mt_bol i cs : i = 0 -> mt RBol i cs i cs
| mt_eol i cs : i = length t -> mt REol i cs i cs.

End Mt.

(** [r] contains no capturing group number 1. *)
Fixpoint g1free (r : re) : bool :=
  match r with
  | RCat r1 r2 | RAlt r1 r2 => g1free r1 && g1free r2
  | RStar r1 => g1free r1
  | RGrp n r1 => negb (n =? 1) && g1free r1
  | _ => true
  end.

(** The language of [[A-Z_][A-Z0-9_]*]. *)
Definition name_ok (s : list ascii) : bool :=
  match s with
  | [] => false
  | c :: r => name_start c && forallb name_char r
  end.

End RegexSemantics.
Import RegexSemantics.

(* ================================================================== *)
(** * Properties *)

(** ** List lemmas for maps with unique keys *)

Module ListFacts.

Lemma filter_all_false {A} (f : A -> bool) (l : list A) :
  (forall x, In x l -> f x = false) -> filter f l = [].
Proof.
  induction l as [|x l IH]; simpl; intros H; [reflexivity|].
  rewrite (H x (or_introl eq_refl)). apply IH. intros y Hy. apply H. now right.
Qed.

Lemma filter_all_true {A} (f : A -> bool) (l : list A) :
  (forall x, In x l -> f x = true) -> filter f l = l.
Proof.
  induction l as [|x l IH]; simpl; intros H; [reflexivity|].
  rewrite (H x (or_introl eq_refl)). f_equal. apply IH. intros y Hy. apply H. now right.
Qed.

Lemma filter_app {A} (f : A -> bool) (l1 l2 : list A) :
  filter f (l1 ++ l2) = filter f l1 ++ filter f l2.
Proof.
  induction l1 as [|x l1 IH]; simpl; [reflexivity|].
  destruct (f x); simpl; now rewrite IH.
Qed.

Lemma filter_map_comm {A B} (f : B -> bool) (g : A -> B) (l : list A) :
  filter f (map g l) = map g (filter (fun x => f (g x)) l).
Proof.
  induction l as [|x l IH]; simpl; [reflexivity|].
  destruct (f (g x)); simpl; now rewrite IH.
Qed.

Lemma filter_filter_comm {A} (f g : A -> bool) (l : list A) :
  filter f (filter g l) = filter g (filter f l).
Proof.
  induction l as [|x l IH]; simpl; [reflexivity|].
  destruct (g x) eqn:Hg, (f x) eqn:Hf; simpl; rewrite ?Hg, ?Hf; now rewrite IH.
Qed.

(** Selecting one key out of a [flat_map] over a map with unique keys,
    whose images carry the key of their source entry. *)
Lemma flat_map_select_key {V W} (g : string * V -> list W) (kw : W -> string)
  (l : list (string * V)) (k : string) (u : V) :
  NoDup (map fst l) -> In (k, u) l ->
  (forall p w, In w (g p) -> kw w = fst p) ->
  filter (fun w => String.eqb (kw w) k) (flat_map g l) = g (k, u).
Proof.
  intros Hnd Hin Hg. induction l as [|[k' v'] l IH]; simpl in *; [contradiction|].
  inversion Hnd as [|? ? Hnotin Hnd']; subst.
  rewrite filter_app.
  destruct Hin as [Heq|Hin].
  - injection Heq as <- <-.
    rewrite filter_all_true.
    2:{ intros w Hw. rewrite (Hg _ _ Hw). apply String.eqb_refl. }
    rewrite filter_all_false; [now rewrite app_nil_r|].
    intros w Hw. apply in_flat_map in Hw as [p [Hp Hw]].
    rewrite (Hg _ _ Hw). apply String.eqb_neq. intros E.
    apply Hnotin. rewrite <- E. now apply in_map.
  - rewrite filter_all_false.
    2:{ intros w Hw. rewrite (Hg _ _ Hw). simpl. apply String.eqb_neq.
        intros ->. apply Hnotin. change k with (fst (k, u)). now apply in_map. }
    simpl. now apply IH.
Qed.

End ListFacts.
Import ListFacts.

(** ** Map lemmas *)

Module JsMapFacts.
Section Facts.
Context {V : Type}.

Lemma get_set_eq (k : string) (v : V) (mp : JsMap.t) : JsMap.get k (JsMap.set k v mp) = Some v.
Proof.
  induction mp as [|[k' v'] mp IH]; simpl.
  - now rewrite String.eqb_refl.
  - destruct (String.eqb k' k) eqn:E; simpl.
    + now rewrite String.eqb_refl.
    + now rewrite E.
Qed.

Lemma get_set_neq (k k' : string) (v : V) (mp : JsMap.t) :
  k' <> k -> JsMap.get k (JsMap.set k' v mp) = JsMap.get k mp.
Proof.
  intros Hne. induction mp as [|[k0 v0] mp IH]; simpl.
  - apply String.eqb_neq in Hne. now rewrite Hne.
  - destruct (String.eqb k0 k') eqn:E; simpl.
    + apply String.eqb_eq in E; subst k0.
      apply String.eqb_neq in Hne. now rewrite Hne.
    + now rewrite IH.
Qed.

Lemma get_some_has (k : string) (mp : @JsMap.t V) v :
  JsMap.get k mp = Some v -> JsMap.has k mp = true.
Proof.
  induction mp as [|[k0 v0] mp IH]; simpl; [discriminate|].
  destruct (String.eqb k0 k); simpl; auto.
Qed.

(** A key present with value [v] keeps it through any [set] guarded by
    [has]. *)
Lemma get_set_if_absent (k k' : string) (v w : V) (mp : JsMap.t) :
  JsMap.get k mp = Some v ->
  JsMap.get k (if JsMap.has k' mp then mp else JsMap.set k' w mp) = Some v.
Proof.
  intros H. destruct (JsMap.has k' mp) eqn:Hh; [exact H|].
  rewrite get_set_neq; [exact H|].
  intros ->. apply get_some_has in H. congruence.
Qed.

End Facts.
End JsMapFacts.
Import JsMapFacts.

(** ** Reconciliation of a manifest scope *)

Module ReconcileFacts.

Definition is_missing_for (name : string) (i : Issue) : bool :=
  IssueType_eqb (type i) missing && String.eqb (varName i) name.

Definition is_unused_for (name : string) (i : Issue) : bool :=
  IssueType_eqb (type i) unused && String.eqb (varName i) name.

(** [missingFromServerless] holds a used, undeclared, non-suppressed
    name exactly once. *)
Lemma missingFromServerless_select strictMode config (sv : ServerlessParser.envmap)
  (used : usagemap) name usage :
  NoDup (map fst used) -> In (name, usage) used -> JsMap.has name sv = false ->
  strictMode = true \/ (isKnownRuntimeVar name = false /\ shouldIgnoreVar name config = false) ->
  filter (fun p => String.eqb (fst p) name)
    (flat_map (fun '(varName, usage) =>
       if negb (JsMap.has varName sv) then
         if negb strictMode && (isKnownRuntimeVar varName || shouldIgnoreVar varName config)
         then [] else [(varName, usage)]
       else []) used) = [(name, usage)].
Proof.
  intros Hnd Hin Hsv Hsup.
  rewrite (flat_map_select_key _ fst used name usage Hnd Hin).
  - rewrite Hsv. simpl.
    destruct Hsup as [-> | [-> ->]]; [reflexivity|]. now rewrite andb_false_r.
  - intros [v u] w Hw.
    destruct (negb (JsMap.has v sv)); [|contradiction].
    destruct (_ && _); simpl in Hw; [contradiction|].
    destruct Hw as [<-|[]]; reflexivity.
Qed.

(** [unusedServerlessVars] holds a declared, unused name once, unless it is
    suppressed. *)
Lemma unusedServerlessVars_select strictMode config (sv : ServerlessParser.envmap)
  (used : usagemap) name e :
  NoDup (map fst sv) -> In (name, e) sv -> JsMap.has name used = false ->
  filter (fun v => String.eqb v name)
    (flat_map (fun '(varName, _) =>
       if negb (JsMap.has varName used) then
         if strictMode || negb (isKnownRuntimeVar varName || shouldIgnoreVar varName config)
         then [varName] else []
       else []) sv)
  = if strictMode || negb (isKnownRuntimeVar name || shouldIgnoreVar name config)
    then [name] else [].
Proof.
  intros Hnd Hin Hused.
  rewrite (flat_map_select_key _ (fun v => v) sv name e Hnd Hin).
  - rewrite Hused. reflexivity.
  - intros [v u] w Hw.
    destruct (negb (JsMap.has v used)); [|contradiction].
    cbv zeta in Hw.
    destruct (strictMode || _); simpl in Hw; [|contradiction].
    destruct Hw as [<-|[]]; reflexivity.
Qed.

End ReconcileFacts.
Import ReconcileFacts.

(** ** Extraction steps never downgrade *)

Module ScanFacts.

Definition guarded (k : string) (mp : envmap) : Prop := JsMap.get k mp = Some true.

Lemma set_always_true_keeps k t mp cs :
  guarded k mp -> guarded k (set_always true t mp cs).
Proof.
  unfold guarded, set_always. intros H.
  destruct (group t 1 cs) as [n|]; [|exact H].
  destruct (String.eqb (str_of n) k) eqn:E.
  - apply String.eqb_eq in E; subst. apply get_set_eq.
  - rewrite get_set_neq; [exact H|]. now apply String.eqb_neq.
Qed.

Lemma set_if_absent_keeps v k t mp cs :
  guarded k mp -> guarded k (set_if_absent v t mp cs).
Proof.
  unfold guarded, set_if_absent. intros H.
  destruct (group t 1 cs) as [n|]; [|exact H].
  now apply get_set_if_absent.
Qed.

Lemma destructure_body_keeps k t mp cs :
  guarded k mp -> guarded k (destructure_body t mp cs).
Proof.
  unfold guarded, destructure_body. intros H.
  destruct (group t 1 cs) as [g|]; [|exact H].
  generalize (map JsString.trim (JsString.split "," g)) as vs.
  intros vs. revert mp H. induction vs as [|v vs IH]; intros mp H; simpl; [exact H|].
  apply IH. unfold destructure_one. cbv zeta.
  destruct (test validNamePattern _); [|exact H].
  now apply get_set_if_absent.
Qed.

Lemma run_keeps (body : list ascii -> envmap -> caps -> envmap) p t k mp :
  (forall mp cs, guarded k mp -> guarded k (body t mp cs)) ->
  guarded k mp -> guarded k (run body p t mp).
Proof.
  intros Hb. unfold run. generalize (matches t p). intros l.
  revert mp. induction l as [|cs l IH]; intros mp H; simpl; auto.
Qed.

(** Every rule of [scan_content] keeps a guarded name guarded: once any
    rule marks a name guarded, the later rules never turn it bare. *)
Lemma scan_steps_never_downgrade t k :
  let step1 := run (set_always true) processEnvWithFallbackPattern t [] in
  let step2 := run (set_if_absent true) conditionalPattern t step1 in
  let step3 := run destructure_body destructuringWithDefaultPattern t step2 in
  let step4 := run (set_if_absent true) optionalChainingPattern t step3 in
  let step5 := run (set_always true) processEnvBracketWithFallbackPattern t step4 in
  let step6 := run (set_if_absent false) basicProcessEnvPattern t step5 in
  (guarded k step1 -> guarded k step2) /\ (guarded k step2 -> guarded k step3) /\
  (guarded k step3 -> guarded k step4) /\ (guarded k step4 -> guarded k step5) /\
  (guarded k step5 -> guarded k step6) /\
  (guarded k step6 -> guarded k (scan_content t)).
Proof.
  cbv zeta.
  repeat split; apply run_keeps; intros;
    first [ apply set_always_true_keeps | apply set_if_absent_keeps
          | apply destructure_body_keeps ]; assumption.
Qed.

End ScanFacts.

(** ** The manifest loops *)

Module ParserFacts.
Import ServerlessParser.

Definition result (o : outcome) : envmap :=
  match o with Done mp => mp | Thrown mp => mp end.

(** The function-level loops only add names that are still absent. *)
Lemma function_env_loop_keeps fp fn es mp k e :
  JsMap.get k mp = Some e -> JsMap.get k (result (function_env_loop fp fn es mp)) = Some e.
Proof.
  revert mp. induction es as [|[k' v] es IH]; intros mp H; simpl; [exact H|].
  destruct (isValidEnvVarName k'); [|now apply IH].
  destruct (js_String v); [|exact H].
  apply IH. now apply get_set_if_absent.
Qed.

Lemma functions_loop_keeps fp fns mp k e :
  JsMap.get k mp = Some e -> JsMap.get k (result (functions_loop fp fns mp)) = Some e.
Proof.
  revert mp. induction fns as [|[fn cfg] fns IH]; intros mp H; simpl; [exact H|].
  destruct (truthy _ && is_object _); [|now apply IH].
  pose proof (function_env_loop_keeps fp fn (entries (get cfg "environment")) mp k e H) as H'.
  destruct (function_env_loop _ _ _ _); simpl in *; [now apply IH|exact H'].
Qed.

(** The provider loop does not touch names it does not list. *)
Lemma provider_loop_frame fp es mp k :
  ~ In k (map fst es) -> JsMap.get k (result (provider_loop fp es mp)) = JsMap.get k mp.
Proof.
  revert mp. induction es as [|[k' v] es IH]; intros mp Hk; simpl in *; [reflexivity|].
  destruct (isValidEnvVarName k'); [|apply IH; tauto].
  destruct (js_String v); [|reflexivity].
  rewrite IH by tauto. apply get_set_neq. intros ->. tauto.
Qed.

(** When every value converts to a string, the provider loop finishes and
    records each valid name with the string of its value. *)
Lemma provider_loop_done fp es mp :
  NoDup (map fst es) -> (forall k v, In (k, v) es -> js_String v <> None) ->
  exists mp', provider_loop fp es mp = Done mp' /\
    forall k v s, In (k, v) es -> isValidEnvVarName k = true -> js_String v = Some s ->
      option_map valueExpression (JsMap.get k mp') = Some s.
Proof.
  revert mp. induction es as [|[k0 v0] es IH]; intros mp Hnd Hconv; simpl.
  - exists mp. split; [reflexivity|]. intros k v s [].
  - inversion Hnd as [|? ? Hnotin Hnd']; subst.
    assert (Hconv' : forall k v, In (k, v) es -> js_String v <> None)
      by (intros k v Hin; apply (Hconv k v); now right).
    destruct (isValidEnvVarName k0) eqn:Hval.
    + destruct (js_String v0) as [s0|] eqn:Hs0;
        [|exfalso; apply (Hconv k0 v0); [left; reflexivity|exact Hs0]].
      set (mp1 := JsMap.set k0 _ mp).
      destruct (IH mp1 Hnd' Hconv') as [mp' [Hrun Hget]].
      exists mp'. split; [exact Hrun|].
      intros k v s [Heq|Hin] Hk Hs.
      * injection Heq as <- <-.
        pose proof (provider_loop_frame fp es mp1 k0 Hnotin) as Hf.
        rewrite Hrun in Hf. simpl in Hf. rewrite Hf.
        unfold mp1. rewrite get_set_eq. simpl. congruence.
      * exact (Hget k v s Hin Hk Hs).
    + destruct (IH mp Hnd' Hconv') as [mp' [Hrun Hget]].
      exists mp'. split; [exact Hrun|].
      intros k v s [Heq|Hin] Hk Hs.
      * injection Heq as <- <-. congruence.
      * exact (Hget k v s Hin Hk Hs).
Qed.

End ParserFacts.

(** ** Soundness of the matcher, captures of group 1 *)

Module RegexFacts.

Lemma m_sound t r : forall k i cs res,
  m t r k i cs = Some res -> exists j cs', mt t r i cs j cs' /\ k j cs' = Some res.
Proof.
  induction r as [| c | p | r1 IH1 r2 IH2 | r1 IH1 r2 IH2 | r1 IH1 | n r1 IH1 | |];
    intros k i cs res H; simpl in H.
  - eauto using mt.
  - destruct (nth_error t i) as [c'|] eqn:E; [|discriminate].
    destruct (Ascii.eqb c c') eqn:Ec; [|discriminate].
    apply Ascii.eqb_eq in Ec; subst. eauto using mt.
  - destruct (nth_error t i) as [c'|] eqn:E; [|discriminate].
    destruct (p c') eqn:Ec; [|discriminate]. eauto using mt.
  - apply IH1 in H as [j [cs1 [H1 H2]]].
    apply IH2 in H2 as [l [cs2 [H3 H4]]]. eauto using mt.
  - destruct (m t r1 k i cs) eqn:E.
    + injection H as <-. apply IH1 in E as [j [cs' [H1 H2]]]. eauto using mt.
    + apply IH2 in H as [j [cs' [H1 H2]]]. eauto using mt.
  - match type of H with
    | context [fun j cs' => if _ <? j then ?F (length t) j cs' else None] =>
        change (F (S (length t)) i cs = Some res) in H;
        revert H; generalize (S (length t)) as fuel; intros fuel
    end.
    revert i cs. induction fuel as [|f IHf]; intros i cs H; simpl in H; [eauto using mt|].
    destruct (m t r1 _ i cs) eqn:E.
    + injection H as <-. apply IH1 in E as [j [cs1 [H1 H2]]].
      destruct (i <? j) eqn:Hij; [|discriminate].
      apply Nat.ltb_lt in Hij.
      apply IHf in H2 as [l [cs2 [H3 H4]]]. eauto using mt.
    + eauto using mt.
  - apply IH1 in H as [j [cs' [H1 H2]]]. eauto using mt.
  - destruct (i =? 0) eqn:E; [|discriminate]. apply Nat.eqb_eq in E. eauto using mt.
  - destruct (i =? length t) eqn:E; [|discriminate]. apply Nat.eqb_eq in E. eauto using mt.
Qed.

Lemma search_sound t r : forall fuel i a e cs,
  search t r i fuel = Some (a, e, cs) -> mt t r a [] e cs.
Proof.
  induction fuel as [|f IH]; intros i a e cs H; simpl in H; [discriminate|].
  destruct (m t r _ i []) as [[j cs']|] eqn:E.
  - injection H as <- <- <-. apply m_sound in E as [j' [cs'' [H1 H2]]].
    injection H2 as <- <-. exact H1.
  - eapply IH; exact H.
Qed.

Lemma exec_sound t r li a e cs :
  exec t r li = Some (a, e, cs) -> mt t r a [] e cs.
Proof.
  unfold exec. destruct (length t <? li); [discriminate|]. apply search_sound.
Qed.

Lemma matches_sound t r cs :
  In cs (matches t r) -> exists a e, mt t r a [] e cs.
Proof.
  unfold matches. generalize 0, (S (length t)). intros li fuel. revert li.
  induction fuel as [|f IH]; intros li H; simpl in H; [contradiction|].
  destruct (exec t r li) as [[[a e] cs']|] eqn:E; [|contradiction].
  destruct H as [<-|H].
  - apply exec_sound in E. eauto.
  - eapply IH; exact H.
Qed.


Lemma mt_cat_inv t r1 r2 i cs l cs2 :
  mt t (RCat r1 r2) i cs l cs2 -> exists j cs1, mt t r1 i cs j cs1 /\ mt t r2 j cs1 l cs2.
Proof. intros H. inversion H; subst. eauto. Qed.

Lemma skipn_nth_error {A} (t : list A) : forall i c,
  nth_error t i = Some c -> skipn i t = c :: skipn (S i) t.
Proof.
  induction t as [|x t IH]; intros [|i] c H; simpl in *; try discriminate.
  - now injection H as ->.
  - now apply IH.
Qed.

Lemma mt_str t s : forall i cs j cs',
  mt t (RStr s) i cs j cs' ->
  firstn (String.length s) (skipn i t) = list_ascii_of_string s /\ j = i + String.length s /\ cs' = cs.
Proof.
  induction s as [|c s IH]; intros i cs j cs' H; simpl in *.
  - inversion H; subst. rewrite Nat.add_0_r. auto.
  - apply mt_cat_inv in H as [j1 [cs1 [H1 H2]]].
    inversion H1; subst.
    apply IH in H2 as [Hf [-> ->]].
    match goal with Hn : nth_error t i = Some _ |- _ => rewrite (skipn_nth_error t i _ Hn) end. cbn [firstn]. rewrite Hf. split; [reflexivity|]. split; [lia|reflexivity].
Qed.


Lemma mt_star_cls t p i cs j cs' :
  mt t (RStar (RCls p)) i cs j cs' ->
  i <= j /\ cs' = cs /\ forall x, i <= x < j -> exists c, nth_error t x = Some c /\ p c = true.
Proof.
  remember (RStar (RCls p)) as r eqn:Er. intros H.
  induction H; try discriminate.
  - split; [lia|]. split; [reflexivity|]. intros x Hx; lia.
  - injection Er as ->. inversion H; subst.
    destruct (IHmt2 eq_refl) as [Hle [-> Hall]].
    split; [lia|]. split; [reflexivity|].
    intros x Hx. destruct (Nat.eq_dec x i) as [->|Hne]; [eauto|].
    apply Hall. lia.
Qed.

Lemma mt_g1free t r i cs j cs' :
  mt t r i cs j cs' -> g1free r = true -> cap_lookup 1 cs' = cap_lookup 1 cs.
Proof.
  intros H. induction H; simpl; intros Hg; try reflexivity;
    repeat match goal with Hb : _ && _ = true |- _ => apply andb_true_iff in Hb as [? ?] end;
    try (apply IHmt; assumption).
  - rewrite IHmt2, IHmt1 by assumption. reflexivity.
  - rewrite IHmt2, IHmt1 by assumption. reflexivity.
  - destruct n as [|[|n]]; simpl in *; [apply IHmt; assumption|discriminate|].
    apply IHmt; assumption.
Qed.

Lemma forallb_slice (t : list ascii) (p : ascii -> bool) : forall n a,
  (forall x, a <= x < a + n -> exists c, nth_error t x = Some c /\ p c = true) ->
  forallb p (firstn n (skipn a t)) = true.
Proof.
  induction n as [|n IH]; intros a H; [reflexivity|].
  destruct (H a ltac:(lia)) as [c [Hc Hp]].
  rewrite (skipn_nth_error t a c Hc). cbn [firstn forallb]. rewrite Hp. cbn [andb].
  apply IH. intros x Hx. apply H. lia.
Qed.

Lemma mt_env_name t i cs j cs' :
  mt t env_name i cs j cs' -> name_ok (slice t i j) = true /\ cs' = cs.
Proof.
  intros H. apply mt_cat_inv in H as [j1 [cs1 [H1 H2]]].
  inversion H1 as [| |p c i0 cs0 Hc Hp| | | | | | | |]; subst.
  apply mt_star_cls in H2 as [Hle [-> Hall]].
  unfold slice. rewrite (skipn_nth_error t i c Hc).
  replace (j - i) with (S (j - S i)) by lia. cbn [firstn name_ok].
  rewrite Hp. cbn [andb]. split; [|reflexivity].
  apply forallb_slice. intros x Hx. apply Hall. lia.
Qed.

Lemma mt_seq_grp1 t pre post : forall i cs j cs',
  forallb g1free post = true ->
  mt t (RSeq (pre ++ RGrp 1 env_name :: post)) i cs j cs' ->
  exists a b, cap_lookup 1 cs' = Some (a, b) /\ name_ok (slice t a b) = true.
Proof.
  induction pre as [|r pre IH]; intros i cs j cs' Hpost H; simpl in H;
    apply mt_cat_inv in H as [j1 [cs1 [H1 H2]]].
  - inversion H1 as [| | | | | | | |n r0 i0 cs0 j0 cs2 Hm| |]; subst.
    apply mt_env_name in Hm as [Hn _].
    assert (Hg : g1free (RSeq post) = true).
    { clear -Hpost. induction post as [|r post IH]; simpl in *; [reflexivity|].
      apply andb_true_iff in Hpost as [-> Hp]. now apply IH. }
    rewrite (mt_g1free _ _ _ _ _ _ H2 Hg). simpl. eauto.
  - eapply IH; eassumption.
Qed.


(** Greedy star over a class that holds up to the end of the text. *)
Lemma m_star_cls_all t p k i cs res :
  i <= length t ->
  (forall x, i <= x < length t -> exists c, nth_error t x = Some c /\ p c = true) ->
  k (length t) cs = Some res ->
  m t (RStar (RCls p)) k i cs = Some res.
Proof.
  intros Hi Hall Hk. simpl m.
  match goal with
  | |- context [?F (length t) (S i) cs] =>
      change (F (S (length t)) i cs = Some res);
      assert (Hf : length t - i < S (length t)) by lia; revert Hf;
      generalize (S (length t)) as fuel; intros fuel
  end.
  revert i Hi Hall. induction fuel as [|f IHf]; intros i Hi Hall Hf; [lia|].
  simpl.
  destruct (Nat.eq_dec i (length t)) as [->|Hne].
  - rewrite (proj2 (nth_error_None t (length t)) (le_n _)). exact Hk.
  - destruct (Hall i ltac:(lia)) as [c [Hc Hp]]. rewrite Hc, Hp.
    rewrite (proj2 (Nat.ltb_lt i (S i)) (Nat.lt_succ_diag_r i)).
    rewrite IHf; [reflexivity|lia| |lia]. intros x Hx. apply Hall. lia.
Qed.

Lemma exec_at0 t r j cs :
  m t r (fun j cs => Some (j, cs)) 0 [] = Some (j, cs) -> exec t r 0 = Some (0, j, cs).
Proof.
  intros H. unfold exec.
  destruct (length t <? 0) eqn:E; [apply Nat.ltb_lt in E; lia|].
  rewrite Nat.sub_0_r. cbn [search]. rewrite H. reflexivity.
Qed.

(** Every [name_ok] text matches [/^[A-Z_][A-Z0-9_]*$/]. *)
Lemma name_ok_valid s : name_ok s = true -> test validNamePattern s = true.
Proof.
  destruct s as [|c r]; simpl; [discriminate|].
  intros Hok. apply andb_true_iff in Hok as [Hs Hr].
  assert (Hm : m (c :: r) validNamePattern (fun j cs => Some (j, cs)) 0 []
               = Some (length (c :: r), [])).
  { change ((if name_start c then
               m (c :: r) (RStar (RCls name_char))
                 (m (c :: r) (RCat REol RNil) (fun j cs => Some (j, cs))) 1 []
             else None) = Some (length (c :: r), [])).
    rewrite Hs. apply m_star_cls_all.
    - simpl. lia.
    - intros x Hx. destruct x as [|x]; [lia|]. simpl.
      destruct (nth_error r x) as [c'|] eqn:E.
      + exists c'. split; [reflexivity|]. rewrite forallb_forall in Hr.
        apply Hr. eapply nth_error_In; exact E.
      + apply nth_error_None in E. simpl in Hx. lia.
    - cbn [m]. rewrite Nat.eqb_refl. reflexivity. }
  unfold test. rewrite (exec_at0 _ _ _ _ Hm). reflexivity.
Qed.

End RegexFacts.
Import RegexFacts.

(** ** Names in the extractor's and the collector's maps *)

Module NameFacts.

Lemma in_set {V} (k k' : string) (v v' : V) mp :
  In (k', v') (JsMap.set k v mp) -> (k', v') = (k, v) \/ In (k', v') mp.
Proof.
  induction mp as [|[k0 v0] mp IH]; simpl; intros H.
  - destruct H as [H|[]]. left. congruence.
  - destruct (String.eqb k0 k) eqn:E.
    + apply String.eqb_eq in E; subst k0. destruct H as [H|H]; [left; congruence|].
      right; right; exact H.
    + destruct H as [H|H]; [right; left; exact H|].
      destruct (IH H) as [H'|H']; [left; exact H'|right; right; exact H'].
Qed.

Definition keys_valid (mp : Scanner.envmap) : Prop :=
  forall k v, In (k, v) mp -> test validNamePattern (list_ascii_of_string k) = true.

Lemma keys_valid_set k v mp :
  test validNamePattern (list_ascii_of_string k) = true ->
  keys_valid mp -> keys_valid (JsMap.set k v mp).
Proof.
  intros Hk H k' v' Hin. apply in_set in Hin as [Heq|Hin]; [|eapply H; exact Hin].
  injection Heq as -> ->. exact Hk.
Qed.

(** The patterns whose group 1 is [([A-Z_][A-Z0-9_]* )]. *)
Definition group1_name (p : re) : Prop :=
  forall t cs n, In cs (matches t p) -> group t 1 cs = Some n -> name_ok n = true.

Lemma group1_name_seq pre post :
  forallb g1free post = true -> group1_name (RSeq (pre ++ RGrp 1 env_name :: post)).
Proof.
  intros Hpost t cs n Hin Hg.
  destruct (matches_sound _ _ _ Hin) as [a [e Hm]].
  destruct (mt_seq_grp1 _ _ _ _ _ _ _ Hpost Hm) as [a' [b' [Hc Hn]]].
  unfold group in Hg. rewrite Hc in Hg. injection Hg as <-. exact Hn.
Qed.

Lemma run_keys_valid (body : list ascii -> Scanner.envmap -> caps -> Scanner.envmap) p t mp :
  (forall mp cs, In cs (matches t p) -> keys_valid mp -> keys_valid (body t mp cs)) ->
  keys_valid mp -> keys_valid (run body p t mp).
Proof.
  intros Hb. unfold run. revert Hb. generalize (matches t p) as l.
  intros l. revert mp. induction l as [|cs l IH]; intros mp Hb H; simpl; [exact H|].
  apply IH; [intros mp' cs' Hin; apply Hb; now right|].
  apply Hb; [now left|exact H].
Qed.

Lemma set_keys_valid v (set : bool) p t mp cs :
  group1_name p -> In cs (matches t p) -> keys_valid mp ->
  keys_valid (if set then set_always v t mp cs else set_if_absent v t mp cs).
Proof.
  intros Hp Hin H. unfold set_always, set_if_absent.
  destruct (group t 1 cs) as [n|] eqn:Hg; [|destruct set; exact H].
  assert (Hk : test validNamePattern (list_ascii_of_string (str_of n)) = true).
  { unfold str_of. rewrite list_ascii_of_string_of_list_ascii.
    apply name_ok_valid. exact (Hp t cs n Hin Hg). }
  destruct set; [now apply keys_valid_set|].
  destruct (JsMap.has _ _); [exact H|now apply keys_valid_set].
Qed.

Lemma destructure_body_keys_valid t mp cs :
  keys_valid mp -> keys_valid (destructure_body t mp cs).
Proof.
  unfold destructure_body. destruct (group t 1 cs) as [g|]; [|auto].
  generalize (map JsString.trim (JsString.split "," g)) as vs. intros vs.
  revert mp. induction vs as [|v vs IH]; intros mp H; simpl; [exact H|].
  apply IH. unfold destructure_one. cbv zeta.
  destruct (test validNamePattern _) eqn:Ht; [|exact H].
  destruct (JsMap.has _ _); [exact H|].
  apply keys_valid_set; [|exact H].
  unfold str_of. rewrite list_ascii_of_string_of_list_ascii. exact Ht.
Qed.

Lemma group1_P1 : group1_name processEnvWithFallbackPattern.
Proof. apply (group1_name_seq [RStr "process.env."] [RStar ws; RGrp 2 fallback_op]); reflexivity. Qed.

Lemma group1_P2 : group1_name conditionalPattern.
Proof.
  apply (group1_name_seq [RStr "if"; RStar ws; RChr "("; RStar ws; ROpt (RChr "!"); RStar ws;
                          RStr "process.env."] [RStar ws; RChr ")"]); reflexivity.
Qed.

Lemma group1_P4 : group1_name optionalChainingPattern.
Proof. apply (group1_name_seq [RStr "process.env?."] []); reflexivity. Qed.

Lemma group1_P5 : group1_name processEnvBracketWithFallbackPattern.
Proof.
  apply (group1_name_seq [RStr "process.env["; quote]
                         [quote_or_bracket; RStar ws; RGrp 2 fallback_op]); reflexivity.
Qed.

Lemma group1_P6 : group1_name basicProcessEnvPattern.
Proof. apply (group1_name_seq [RStr "process.env."] []); reflexivity. Qed.

Lemma group1_P7 : group1_name basicBracketPattern.
Proof. apply (group1_name_seq [RStr "process.env["; quote] [quote_or_bracket]); reflexivity. Qed.

(** Every key of the extractor's map matches [/^[A-Z_][A-Z0-9_]*$/]. *)
Lemma scan_content_keys_valid t : keys_valid (scan_content t).
Proof.
  unfold scan_content.
  apply run_keys_valid; [intros mp cs Hin H; exact (set_keys_valid false false _ _ _ _ group1_P7 Hin H)|].
  apply run_keys_valid; [intros mp cs Hin H; exact (set_keys_valid false false _ _ _ _ group1_P6 Hin H)|].
  apply run_keys_valid; [intros mp cs Hin H; exact (set_keys_valid true true _ _ _ _ group1_P5 Hin H)|].
  apply run_keys_valid; [intros mp cs Hin H; exact (set_keys_valid true false _ _ _ _ group1_P4 Hin H)|].
  apply run_keys_valid; [intros mp cs _ H; now apply destructure_body_keys_valid|].
  apply run_keys_valid; [intros mp cs Hin H; exact (set_keys_valid true false _ _ _ _ group1_P2 Hin H)|].
  apply run_keys_valid; [intros mp cs Hin H; exact (set_keys_valid true true _ _ _ _ group1_P1 Hin H)|].
  intros k v [].
Qed.

(** The manifest loops only record names accepted by [isValidEnvVarName]. *)
Definition entries_valid (mp : ServerlessParser.envmap) : Prop :=
  forall k e, In (k, e) mp -> ServerlessParser.isValidEnvVarName k = true.

Lemma entries_valid_set k e mp :
  ServerlessParser.isValidEnvVarName k = true -> entries_valid mp ->
  entries_valid (JsMap.set k e mp).
Proof.
  intros Hk H k' e' Hin. apply in_set in Hin as [Heq|Hin]; [|eapply H; exact Hin].
  injection Heq as -> ->. exact Hk.
Qed.

Lemma provider_loop_valid fp es mp :
  entries_valid mp -> entries_valid (ParserFacts.result (ServerlessParser.provider_loop fp es mp)).
Proof.
  revert mp. induction es as [|[k v] es IH]; intros mp H; simpl; [exact H|].
  destruct (ServerlessParser.isValidEnvVarName k) eqn:Hk; [|now apply IH].
  destruct (js_String v); [|exact H].
  apply IH. now apply entries_valid_set.
Qed.

Lemma function_env_loop_valid fp fn es mp :
  entries_valid mp ->
  entries_valid (ParserFacts.result (ServerlessParser.function_env_loop fp fn es mp)).
Proof.
  revert mp. induction es as [|[k v] es IH]; intros mp H; simpl; [exact H|].
  destruct (ServerlessParser.isValidEnvVarName k) eqn:Hk; [|now apply IH].
  destruct (js_String v); [|exact H].
  apply IH. destruct (JsMap.has k mp); [exact H|now apply entries_valid_set].
Qed.

Lemma functions_loop_valid fp fns mp :
  entries_valid mp ->
  entries_valid (ParserFacts.result (ServerlessParser.functions_loop fp fns mp)).
Proof.
  revert mp. induction fns as [|[fn cfg] fns IH]; intros mp H; simpl; [exact H|].
  destruct (truthy _ && is_object _); [|now apply IH].
  pose proof (function_env_loop_valid fp fn (entries (get cfg "environment")) mp H) as H'.
  destruct (ServerlessParser.function_env_loop _ _ _ _); simpl in *; [now apply IH|exact H'].
Qed.

Lemma parse_valid yaml_load fs filePath :
  entries_valid (fst (ServerlessParser.parse yaml_load fs filePath)).
Proof.
  assert (H0 : entries_valid []) by (intros k e []).
  unfold ServerlessParser.parse.
  destruct (fs filePath) as [| |content]; simpl; try exact H0.
  destruct (yaml_load content) as [doc|]; simpl; [|exact H0].
  destruct (negb (truthy doc) || negb (is_object doc)); simpl; [exact H0|].
  match goal with
  | |- context [if ?c then ServerlessParser.provider_loop ?fp ?es [] else ServerlessParser.Done []] =>
      pose proof (provider_loop_valid fp es [] H0) as Hp; destruct c
  end.
  - destruct (ServerlessParser.provider_loop _ _ _) as [mp|mp]; simpl in *; [|exact Hp].
    destruct (truthy _ && is_object _); [|exact Hp].
    pose proof (functions_loop_valid filePath (entries (get doc "functions")) mp Hp) as Hf.
    destruct (ServerlessParser.functions_loop _ _ _); exact Hf.
  - simpl.
    destruct (truthy _ && is_object _); [|exact H0].
    pose proof (functions_loop_valid filePath (entries (get doc "functions")) [] H0) as Hf.
    destruct (ServerlessParser.functions_loop _ _ _); exact Hf.
Qed.

End NameFacts.
Import NameFacts.

(** ** Texts without [const] destructuring or member access *)

Module DestructFacts.







End DestructFacts.
Import DestructFacts.


(** ** Usage aggregation, manifest entries, exclusions and grouping *)

Module ExtraFacts.

Lemma set_has_app xs ys v : set_has (xs ++ ys) v = set_has xs v || set_has ys v.
Proof. unfold set_has. apply existsb_app. Qed.

Lemma category_known varName :
  getRuntimeVarCategory varName <> None <-> isKnownRuntimeVar varName = true.
Proof.
  unfold getRuntimeVarCategory, isKnownRuntimeVar, KNOWN_RUNTIME_VARS.
  rewrite !set_has_app.
  destruct (set_has AWS_PROVIDED_VARS varName), (set_has NODEJS_RUNTIME_VARS varName),
    (set_has CI_CD_VARS varName), (set_has SERVERLESS_FRAMEWORK_VARS varName),
    (set_has TEST_VARS varName); simpl; split; congruence.
Qed.

Lemma category_nonempty varName c :
  getRuntimeVarCategory varName = Some c -> String.eqb c "" = false.
Proof.
  unfold getRuntimeVarCategory.
  repeat match goal with |- context [if ?b then _ else _] => destruct b end;
    intros H; try discriminate; injection H as <-; reflexivity.
Qed.

(** The category of a skipped name, as [scanCommand] computes it. *)
Lemma skipped_category config varName :
  (isKnownRuntimeVar varName || shouldIgnoreVar varName config) = true ->
  exists c, category_truthy (if shouldIgnoreVar varName config then Some "Custom (from config)"
                             else getRuntimeVarCategory varName) = Some c /\
            ((shouldIgnoreVar varName config = true /\ c = "Custom (from config)") \/
             (shouldIgnoreVar varName config = false /\ getRuntimeVarCategory varName = Some c)).
Proof.
  intros H. destruct (shouldIgnoreVar varName config) eqn:Hi.
  - exists "Custom (from config)". simpl. auto.
  - rewrite orb_false_r in H. apply category_known in H.
    destruct (getRuntimeVarCategory varName) as [c|] eqn:Hc; [|congruence].
    exists c. simpl. rewrite (category_nonempty _ _ Hc). auto.
Qed.

Section MapFacts.
Context {V : Type}.

Lemma has_get (k : string) (mp : @JsMap.t V) :
  JsMap.has k mp = true -> exists v, JsMap.get k mp = Some v.
Proof.
  induction mp as [|[k0 v0] mp IH]; simpl; [discriminate|].
  destruct (String.eqb k0 k); simpl; eauto.
Qed.

Lemma has_get_none (k : string) (mp : @JsMap.t V) :
  JsMap.has k mp = false -> JsMap.get k mp = None.
Proof.
  induction mp as [|[k0 v0] mp IH]; simpl; [reflexivity|].
  destruct (String.eqb k0 k); simpl; [discriminate|exact IH].
Qed.

Lemma has_in (k : string) (mp : @JsMap.t V) :
  JsMap.has k mp = true <-> In k (map fst mp).
Proof.
  induction mp as [|[k0 v0] mp IH]; simpl; [split; [discriminate|tauto]|].
  rewrite orb_true_iff, IH, String.eqb_eq. tauto.
Qed.

Lemma keys_set (k : string) (v : V) mp :
  map fst (JsMap.set k v mp) = if JsMap.has k mp then map fst mp else map fst mp ++ [k].
Proof.
  induction mp as [|[k0 v0] mp IH]; simpl; [reflexivity|].
  destruct (String.eqb k0 k) eqn:E; simpl.
  - apply String.eqb_eq in E. now subst.
  - now rewrite IH; destruct (JsMap.has k mp).
Qed.

Lemma nodup_set (k : string) (v : V) mp :
  NoDup (map fst mp) -> NoDup (map fst (JsMap.set k v mp)).
Proof.
  intros H. rewrite keys_set. destruct (JsMap.has k mp) eqn:Hk; [exact H|].
  apply NoDup_app; [exact H|constructor; [intros []|constructor]|].
  intros x Hx [<-|[]]. apply has_in in Hx. congruence.
Qed.

End MapFacts.

(** One entry added to a usage map. *)
Definition bump (o : option Usage) (loc : string) (b : bool) : Usage :=
  match o with
  | Some e => {| usage_locations := usage_locations e ++ [loc]; hasFallback := hasFallback e || b |}
  | None => {| usage_locations := [loc]; hasFallback := b |}
  end.

Lemma add_usage_get r acc k0 b0 k :
  JsMap.get k (add_usage r acc (k0, b0)) =
  if String.eqb k0 k then Some (bump (JsMap.get k acc) r b0) else JsMap.get k acc.
Proof.
  unfold add_usage. destruct (String.eqb k0 k) eqn:E.
  - apply String.eqb_eq in E; subst k0.
    destruct (JsMap.has k acc) eqn:Hh.
    + destruct (has_get k acc Hh) as [e He]. rewrite He, get_set_eq. reflexivity.
    + rewrite get_set_eq, get_set_eq, (has_get_none k acc Hh). reflexivity.
  - assert (Hne : k0 <> k) by (apply String.eqb_neq; exact E).
    destruct (JsMap.has k0 acc).
    + destruct (JsMap.get k0 acc); [rewrite get_set_neq by exact Hne|]; reflexivity.
    + rewrite get_set_eq, !get_set_neq by exact Hne. reflexivity.
Qed.

Definition flag (mp : Scanner.envmap) (k : string) : bool :=
  match JsMap.get k mp with Some b => b | None => false end.

Lemma add_file_get r (mp : Scanner.envmap) : forall acc k,
  NoDup (map fst mp) ->
  JsMap.get k (fold_left (add_usage r) mp acc) =
  if JsMap.has k mp then Some (bump (JsMap.get k acc) r (flag mp k)) else JsMap.get k acc.
Proof.
  unfold flag.
  induction mp as [|[k0 b0] mp IH]; intros acc k Hnd; [reflexivity|].
  inversion Hnd as [|? ? Hnot Hnd']; subst.
  cbn [fold_left]. rewrite IH by exact Hnd'. rewrite add_usage_get.
  unfold JsMap.has at 2. cbn [existsb fst JsMap.get]. fold (JsMap.has k mp).
  destruct (String.eqb k0 k) eqn:E; simpl orb.
  - apply String.eqb_eq in E; subst k0.
    assert (Hh : JsMap.has k mp = false)
      by (destruct (JsMap.has k mp) eqn:H; [apply has_in in H; contradiction|reflexivity]).
    rewrite Hh. reflexivity.
  - destruct (JsMap.has k mp); [|reflexivity].
    reflexivity.
Qed.

Definition nodup_keys {V} (mp : @JsMap.t V) : Prop := NoDup (map fst mp).

Lemma run_nodup (body : list ascii -> Scanner.envmap -> caps -> Scanner.envmap) p t mp :
  (forall mp cs, nodup_keys mp -> nodup_keys (body t mp cs)) ->
  nodup_keys mp -> nodup_keys (run body p t mp).
Proof.
  intros Hb. unfold run. generalize (matches t p) as l.
  intros l. revert mp. induction l as [|cs l IH]; intros mp H; simpl; [exact H|].
  apply IH. apply Hb, H.
Qed.

Lemma set_always_nodup v t mp cs : nodup_keys mp -> nodup_keys (set_always v t mp cs).
Proof.
  unfold set_always. destruct (group t 1 cs); [apply nodup_set|auto].
Qed.

Lemma set_if_absent_nodup v t mp cs : nodup_keys mp -> nodup_keys (set_if_absent v t mp cs).
Proof.
  unfold set_if_absent. destruct (group t 1 cs); [|auto].
  destruct (JsMap.has _ _); [auto|apply nodup_set].
Qed.

Lemma destructure_body_nodup t mp cs : nodup_keys mp -> nodup_keys (destructure_body t mp cs).
Proof.
  unfold destructure_body. destruct (group t 1 cs) as [g|]; [|auto].
  generalize (map JsString.trim (JsString.split "," g)) as vs. intros vs.
  revert mp. induction vs as [|v vs IH]; intros mp H; simpl; [exact H|].
  apply IH. unfold destructure_one. cbv zeta.
  destruct (test validNamePattern _); [|exact H].
  destruct (JsMap.has _ _); [exact H|now apply nodup_set].
Qed.

Lemma scan_content_nodup t : nodup_keys (scan_content t).
Proof.
  unfold scan_content.
  apply run_nodup; [intros; now apply set_if_absent_nodup|].
  apply run_nodup; [intros; now apply set_if_absent_nodup|].
  apply run_nodup; [intros; now apply set_always_nodup|].
  apply run_nodup; [intros; now apply set_if_absent_nodup|].
  apply run_nodup; [intros; now apply destructure_body_nodup|].
  apply run_nodup; [intros; now apply set_if_absent_nodup|].
  apply run_nodup; [intros; now apply set_always_nodup|].
  constructor.
Qed.

Lemma scanFile_nodup fs f : nodup_keys (fst (scanFile fs f)).
Proof.
  unfold scanFile. destruct (fs f); try constructor. apply scan_content_nodup.
Qed.

(** What the loop over the files accumulates for one name. *)
Definition uses (fs : filesystem) (k : string) (files : list string) : list string :=
  filter (fun f => JsMap.has k (fst (scanFile fs f))) files.

Lemma dir_fold_get fs relative k : forall files acc,
  JsMap.get k (fold_left (fun envVars file =>
    fold_left (add_usage (relative file)) (fst (scanFile fs file)) envVars) files acc) =
  fold_left (fun o f => if JsMap.has k (fst (scanFile fs f))
                        then Some (bump o (relative f) (flag (fst (scanFile fs f)) k)) else o)
            files (JsMap.get k acc).
Proof.
  induction files as [|f files IH]; intros acc; simpl; [reflexivity|].
  rewrite IH, add_file_get by apply scanFile_nodup. reflexivity.
Qed.

Lemma bump_fold_some fs relative k : forall files e,
  fold_left (fun o f => if JsMap.has k (fst (scanFile fs f))
                        then Some (bump o (relative f) (flag (fst (scanFile fs f)) k)) else o)
            files (Some e) =
  Some {| usage_locations := usage_locations e ++ map relative (uses fs k files);
          hasFallback := hasFallback e || existsb (fun f => flag (fst (scanFile fs f)) k) (uses fs k files) |}.
Proof.
  unfold uses.
  induction files as [|f files IH]; intros e; simpl.
  - rewrite app_nil_r, orb_false_r. destruct e; reflexivity.
  - destruct (JsMap.has k (fst (scanFile fs f))); simpl; rewrite IH; simpl.
    + rewrite <- app_assoc, orb_assoc. reflexivity.
    + reflexivity.
Qed.

Lemma bump_fold_none fs relative k : forall files,
  fold_left (fun o f => if JsMap.has k (fst (scanFile fs f))
                        then Some (bump o (relative f) (flag (fst (scanFile fs f)) k)) else o)
            files None =
  match uses fs k files with
  | [] => None
  | us => Some {| usage_locations := map relative us;
                     hasFallback := existsb (fun f => flag (fst (scanFile fs f)) k) us |}
  end.
Proof.
  unfold uses.
  induction files as [|f files IH]; simpl; [reflexivity|].
  destruct (JsMap.has k (fst (scanFile fs f))); [|exact IH].
  fold (uses fs k files). rewrite bump_fold_some. reflexivity.
Qed.

Lemma dir_get fs relative files k :
  JsMap.get k (scanDirectoryForVars fs relative files) =
  match uses fs k files with
  | [] => None
  | us => Some {| usage_locations := map relative us;
                     hasFallback := existsb (fun f => flag (fst (scanFile fs f)) k) us |}
  end.
Proof.
  unfold scanDirectoryForVars. rewrite dir_fold_get. apply bump_fold_none.
Qed.

Lemma provider_loop_nodup fp es mp :
  nodup_keys mp -> nodup_keys (ParserFacts.result (ServerlessParser.provider_loop fp es mp)).
Proof.
  revert mp. induction es as [|[k v] es IH]; intros mp H; simpl; [exact H|].
  destruct (ServerlessParser.isValidEnvVarName k); [|now apply IH].
  destruct (js_String v); [|exact H].
  apply IH. now apply nodup_set.
Qed.

Lemma function_env_loop_nodup fp fn es mp :
  nodup_keys mp ->
  nodup_keys (ParserFacts.result (ServerlessParser.function_env_loop fp fn es mp)).
Proof.
  revert mp. induction es as [|[k v] es IH]; intros mp H; simpl; [exact H|].
  destruct (ServerlessParser.isValidEnvVarName k); [|now apply IH].
  destruct (js_String v); [|exact H].
  apply IH. destruct (JsMap.has k mp); [exact H|now apply nodup_set].
Qed.

Lemma functions_loop_nodup fp fns mp :
  nodup_keys mp -> nodup_keys (ParserFacts.result (ServerlessParser.functions_loop fp fns mp)).
Proof.
  revert mp. induction fns as [|[fn cfg] fns IH]; intros mp H; simpl; [exact H|].
  destruct (truthy _ && is_object _); [|now apply IH].
  pose proof (function_env_loop_nodup fp fn (entries (get cfg "environment")) mp H) as H'.
  destruct (ServerlessParser.function_env_loop _ _ _ _); simpl in *; [now apply IH|exact H'].
Qed.

Lemma parse_nodup yaml_load fs filePath :
  nodup_keys (fst (ServerlessParser.parse yaml_load fs filePath)).
Proof.
  assert (H0 : @nodup_keys ServerlessParser.ServerlessEnvEntry []) by constructor.
  unfold ServerlessParser.parse.
  destruct (fs filePath) as [| |content]; simpl; try exact H0.
  destruct (yaml_load content) as [doc|]; simpl; [|exact H0].
  destruct (negb (truthy doc) || negb (is_object doc)); simpl; [exact H0|].
  match goal with
  | |- context [if ?c then ServerlessParser.provider_loop ?fp ?es [] else ServerlessParser.Done []] =>
      pose proof (provider_loop_nodup fp es [] H0) as Hp; destruct c
  end.
  - destruct (ServerlessParser.provider_loop _ _ _) as [mp|mp]; simpl in *; [|exact Hp].
    destruct (truthy _ && is_object _); [|exact Hp].
    pose proof (functions_loop_nodup filePath (entries (get doc "functions")) mp Hp) as Hf.
    destruct (ServerlessParser.functions_loop _ _ _); exact Hf.
  - simpl.
    destruct (truthy _ && is_object _); [|exact H0].
    pose proof (functions_loop_nodup filePath (entries (get doc "functions")) [] H0) as Hf.
    destruct (ServerlessParser.functions_loop _ _ _); exact Hf.
Qed.

Definition bump_decl (o : option Usage) (loc : string) : Usage :=
  match o with
  | Some e => {| usage_locations := usage_locations e ++ [loc]; hasFallback := hasFallback e |}
  | None => {| usage_locations := [loc]; hasFallback := false |}
  end.

Lemma add_declaration_get loc acc k0 e0 k :
  JsMap.get k (add_declaration loc acc (k0, e0)) =
  if String.eqb k0 k then Some (bump_decl (JsMap.get k acc) loc) else JsMap.get k acc.
Proof.
  unfold add_declaration. destruct (String.eqb k0 k) eqn:E.
  - apply String.eqb_eq in E; subst k0.
    destruct (JsMap.has k acc) eqn:Hh.
    + destruct (has_get k acc Hh) as [e He]. rewrite He, get_set_eq. reflexivity.
    + rewrite get_set_eq, get_set_eq, (has_get_none k acc Hh). reflexivity.
  - assert (Hne : k0 <> k) by (apply String.eqb_neq; exact E).
    destruct (JsMap.has k0 acc).
    + destruct (JsMap.get k0 acc); [rewrite get_set_neq by exact Hne|]; reflexivity.
    + rewrite get_set_eq, !get_set_neq by exact Hne. reflexivity.
Qed.

Lemma add_decl_file_get loc (mp : ServerlessParser.envmap) : forall acc k,
  nodup_keys mp ->
  JsMap.get k (fold_left (add_declaration loc) mp acc) =
  if JsMap.has k mp then Some (bump_decl (JsMap.get k acc) loc) else JsMap.get k acc.
Proof.
  induction mp as [|[k0 e0] mp IH]; intros acc k Hnd; [reflexivity|].
  inversion Hnd as [|? ? Hnot Hnd']; subst.
  cbn [fold_left]. rewrite IH by exact Hnd'. rewrite add_declaration_get.
  unfold JsMap.has at 2. cbn [existsb fst]. fold (JsMap.has k mp).
  destruct (String.eqb k0 k) eqn:E; simpl orb.
  - apply String.eqb_eq in E; subst k0.
    assert (Hh : JsMap.has k mp = false)
      by (destruct (JsMap.has k mp) eqn:H; [apply has_in in H; contradiction|reflexivity]).
    rewrite Hh. reflexivity.
  - reflexivity.
Qed.

Definition declares (yaml_load : string -> option jsval) (fs : filesystem) (k : string)
  (serverlessFiles : list string) : list string :=
  filter (fun f => JsMap.has k (fst (ServerlessParser.parse yaml_load fs f))) serverlessFiles.

Lemma decl_fold_get yaml_load fs relative k : forall sfiles acc,
  JsMap.get k (fold_left (fun envVars file =>
    fold_left (add_declaration (relative file ++ " (serverless config)")%string)
      (fst (ServerlessParser.parse yaml_load fs file)) envVars) sfiles acc) =
  fold_left (fun o f => if JsMap.has k (fst (ServerlessParser.parse yaml_load fs f))
                        then Some (bump_decl o (relative f ++ " (serverless config)")%string) else o)
            sfiles (JsMap.get k acc).
Proof.
  induction sfiles as [|f sfiles IH]; intros acc; simpl; [reflexivity|].
  rewrite IH, add_decl_file_get by apply parse_nodup. reflexivity.
Qed.

Lemma decl_fold_some yaml_load fs relative k : forall sfiles e,
  fold_left (fun o f => if JsMap.has k (fst (ServerlessParser.parse yaml_load fs f))
                        then Some (bump_decl o (relative f ++ " (serverless config)")%string) else o)
            sfiles (Some e) =
  Some {| usage_locations := usage_locations e ++
            map (fun f => relative f ++ " (serverless config)")%string (declares yaml_load fs k sfiles);
          hasFallback := hasFallback e |}.
Proof.
  unfold declares.
  induction sfiles as [|f sfiles IH]; intros e; simpl.
  - rewrite app_nil_r. destruct e; reflexivity.
  - destruct (JsMap.has k _); simpl; rewrite IH; simpl; [|reflexivity].
    rewrite <- app_assoc. reflexivity.
Qed.

Lemma decl_fold_none yaml_load fs relative k : forall sfiles,
  fold_left (fun o f => if JsMap.has k (fst (ServerlessParser.parse yaml_load fs f))
                        then Some (bump_decl o (relative f ++ " (serverless config)")%string) else o)
            sfiles None =
  match declares yaml_load fs k sfiles with
  | [] => None
  | ds => Some {| usage_locations := map (fun f => relative f ++ " (serverless config)")%string ds;
                  hasFallback := false |}
  end.
Proof.
  unfold declares.
  induction sfiles as [|f sfiles IH]; simpl; [reflexivity|].
  destruct (JsMap.has k _); [|exact IH].
  fold (declares yaml_load fs k sfiles). rewrite decl_fold_some. reflexivity.
Qed.

Lemma set_of_list_fold xs : forall acc,
  let r := fold_left (fun acc x => if existsb (String.eqb x) acc then acc else acc ++ [x]) xs acc in
  (exists rest, r = acc ++ rest) /\ (NoDup acc -> NoDup r) /\
  (forall y, In y r <-> In y acc \/ In y xs).
Proof.
  induction xs as [|x xs IH]; intros acc; simpl.
  - split; [exists []; now rewrite app_nil_r|]. split; [auto|]. intros y; tauto.
  - destruct (existsb (String.eqb x) acc) eqn:Hx.
    + destruct (IH acc) as [Hp [Hn Hi]]. split; [exact Hp|]. split; [exact Hn|].
      intros y. rewrite Hi. apply existsb_exists in Hx as [z [Hz Hzx]].
      apply String.eqb_eq in Hzx; subst z. split; [tauto|].
      intros [H|[<-|H]]; auto.
    + destruct (IH (acc ++ [x])) as [[rest Hp] [Hn Hi]].
      split; [exists (x :: rest); rewrite Hp, <- app_assoc; reflexivity|].
      split.
      * intros Hacc. apply Hn. apply NoDup_app; [exact Hacc|repeat constructor; intros []|].
        intros y Hy [<-|[]]. assert (existsb (String.eqb x) acc = true)
          by (apply existsb_exists; exists x; split; [exact Hy|apply String.eqb_refl]).
        congruence.
      * intros y. rewrite Hi, in_app_iff. simpl. tauto.
Qed.

Lemma list_ascii_app (a b : string) :
  list_ascii_of_string (a ++ b) = list_ascii_of_string a ++ list_ascii_of_string b.
Proof. induction a as [|c a IH]; simpl; [reflexivity|now rewrite IH]. Qed.

Lemma list_ascii_length (s : string) : length (list_ascii_of_string s) = String.length s.
Proof. induction s as [|c s IH]; simpl; [reflexivity|now rewrite IH]. Qed.

Lemma skipn_cons_nth {A} (t : list A) : forall i c rest,
  skipn i t = c :: rest -> nth_error t i = Some c /\ skipn (S i) t = rest.
Proof.
  induction t as [|x t IH]; intros [|i] c rest H; simpl in *; try discriminate.
  - injection H as -> ->. auto.
  - now apply IH.
Qed.

Lemma m_str_complete t s : forall k i cs,
  firstn (String.length s) (skipn i t) = list_ascii_of_string s ->
  m t (RStr s) k i cs = k (i + String.length s) cs.
Proof.
  induction s as [|c s IH]; intros k i cs H; simpl in *.
  - now rewrite Nat.add_0_r.
  - destruct (skipn i t) as [|c' rest] eqn:E; [discriminate|].
    cbn [firstn] in H. injection H as -> Hf.
    destruct (skipn_cons_nth t i c rest E) as [Hn Hs].
    rewrite Hn, Ascii.eqb_refl. rewrite IH by now rewrite Hs.
    now rewrite Nat.add_succ_r.
Qed.

Lemma search_complete t r : forall fuel i j,
  i <= j < i + fuel -> m t r (fun j cs => Some (j, cs)) j [] <> None -> search t r i fuel <> None.
Proof.
  induction fuel as [|f IH]; intros i j Hj Hm; simpl; [lia|].
  destruct (m t r _ i []) as [[e cs]|] eqn:E; [discriminate|].
  destruct (Nat.eq_dec i j) as [<-|Hne]; [congruence|].
  apply (IH (S i) j); [lia|exact Hm].
Qed.

Lemma test_str p (s : list ascii) :
  test (RStr p) s = true <-> exists pre post, s = pre ++ list_ascii_of_string p ++ post.
Proof.
  split.
  - unfold test. destruct (exec s (RStr p) 0) as [[[a e] cs]|] eqn:E; [|discriminate].
    intros _. apply exec_sound, mt_str in E as [Hf _].
    exists (firstn a s), (skipn (String.length p) (skipn a s)).
    rewrite <- Hf, !firstn_skipn. reflexivity.
  - intros [pre [post ->]]. unfold test, exec.
    set (lp := list_ascii_of_string p).
    assert (Hlen : length pre <= length (pre ++ lp ++ post)) by (rewrite length_app; lia).
    destruct (length (pre ++ lp ++ post) <? 0) eqn:E0; [apply Nat.ltb_lt in E0; lia|].
    destruct (search (pre ++ lp ++ post) (RStr p) 0 _) eqn:Es; [destruct p0 as [[? ?] ?]; reflexivity|].
    exfalso. revert Es. apply (search_complete _ _ _ 0 (length pre)); [lia|].
    rewrite m_str_complete; [discriminate|].
    rewrite skipn_app, skipn_all, Nat.sub_diag, skipn_O. simpl.
    rewrite <- list_ascii_length. fold lp. rewrite firstn_app, Nat.sub_diag, firstn_O, app_nil_r.
    apply firstn_all.
Qed.

(** The literals of [isReference], in order. *)
Definition reference_literals : list string :=
  ["${ssm:"; "${aws:reference"; "${file("; "${self:custom."; "${opt:"; "${env:"; "${cf:"].

Definition entry_ok (filePath : string) (k : string) (e : ServerlessParser.ServerlessEnvEntry) : Prop :=
  ServerlessParser.key e = k /\
  ServerlessParser.isReference e = ServerlessParser.isReference_method (ServerlessParser.valueExpression e) /\
  (ServerlessParser.source e = filePath \/
   exists funcName, ServerlessParser.source e = (filePath ++ " (function: " ++ funcName ++ ")")%string).

Definition all_ok (filePath : string) (mp : ServerlessParser.envmap) : Prop :=
  forall k e, In (k, e) mp -> entry_ok filePath k e.

Lemma all_ok_set fp k e mp : entry_ok fp k e -> all_ok fp mp -> all_ok fp (JsMap.set k e mp).
Proof.
  intros He H k' e' Hin. apply in_set in Hin as [Heq|Hin]; [|eapply H; exact Hin].
  injection Heq as -> ->. exact He.
Qed.

Lemma provider_loop_ok fp es mp :
  all_ok fp mp -> all_ok fp (ParserFacts.result (ServerlessParser.provider_loop fp es mp)).
Proof.
  revert mp. induction es as [|[k v] es IH]; intros mp H; simpl; [exact H|].
  destruct (ServerlessParser.isValidEnvVarName k); [|now apply IH].
  destruct (js_String v); [|exact H].
  apply IH. apply all_ok_set; [|exact H].
  split; [reflexivity|]. split; [reflexivity|]. left; reflexivity.
Qed.

Lemma function_env_loop_ok fp fn es mp :
  all_ok fp mp -> all_ok fp (ParserFacts.result (ServerlessParser.function_env_loop fp fn es mp)).
Proof.
  revert mp. induction es as [|[k v] es IH]; intros mp H; simpl; [exact H|].
  destruct (ServerlessParser.isValidEnvVarName k); [|now apply IH].
  destruct (js_String v); [|exact H].
  apply IH. destruct (JsMap.has k mp); [exact H|]. apply all_ok_set; [|exact H].
  split; [reflexivity|]. split; [reflexivity|]. right; exists fn; reflexivity.
Qed.

Lemma functions_loop_ok fp fns mp :
  all_ok fp mp -> all_ok fp (ParserFacts.result (ServerlessParser.functions_loop fp fns mp)).
Proof.
  revert mp. induction fns as [|[fn cfg] fns IH]; intros mp H; simpl; [exact H|].
  destruct (truthy _ && is_object _); [|now apply IH].
  pose proof (function_env_loop_ok fp fn (entries (get cfg "environment")) mp H) as H'.
  destruct (ServerlessParser.function_env_loop _ _ _ _); simpl in *; [now apply IH|exact H'].
Qed.

Lemma add_usage_nodup r acc e : nodup_keys acc -> nodup_keys (add_usage r acc e).
Proof.
  destruct e as [k b]. unfold add_usage. intros H.
  assert (H' : nodup_keys (if JsMap.has k acc then acc
                           else JsMap.set k {| usage_locations := []; hasFallback := false |} acc))
    by (destruct (JsMap.has k acc); [exact H|now apply nodup_set]).
  destruct (JsMap.get k _); [now apply nodup_set|exact H'].
Qed.

Lemma scanDirectoryForVars_nodup fs relative files :
  nodup_keys (scanDirectoryForVars fs relative files).
Proof.
  unfold scanDirectoryForVars.
  assert (H0 : @nodup_keys Usage []) by constructor. revert H0.
  generalize (@nil (string * Usage)) as acc.
  induction files as [|f files IH]; intros acc H; simpl; [exact H|].
  apply IH. generalize (fst (scanFile fs f)) as l. intros l. revert acc H.
  induction l as [|e l IHl]; intros acc H; simpl; [exact H|].
  apply IHl. now apply add_usage_nodup.
Qed.

(** [/^p q* $/] for one-character classes [p] and [q]. *)
Lemma test_anchored_name p q (s : list ascii) :
  test (RSeq [RBol; RCat (RCls p) (RStar (RCls q)); REol]) s =
  match s with [] => false | c :: r => p c && forallb q r end.
Proof.
  destruct (test _ s) eqn:Ht; symmetry.
  - unfold test in Ht. destruct (exec s _ 0) as [[[a e] cs]|] eqn:E; [|discriminate].
    apply exec_sound in E. cbn [RSeq] in E.
    apply mt_cat_inv in E as [j1 [cs1 [H1 E]]]. inversion H1; subst.
    apply mt_cat_inv in E as [j2 [cs2 [H2 E]]].
    apply mt_cat_inv in E as [j3 [cs3 [H3 _]]]. inversion H3; subst.
    apply mt_cat_inv in H2 as [j5 [cs5 [H5 H6]]].
    inversion H5 as [| |p0 c i0 cs0 Hc Hp| | | | | | | |]; subst.
    apply mt_star_cls in H6 as [_ [_ Hall]].
    destruct s as [|c0 r]; [discriminate|]. simpl in Hc. injection Hc as ->.
    rewrite Hp. simpl. apply forallb_forall. intros y Hy.
    apply In_nth_error in Hy as [x Hx].
    destruct (Hall (S x)) as [c' [Hc' Hq]].
    + assert (x < length r) by (apply nth_error_Some; congruence). simpl. lia.
    + simpl in Hc'. congruence.
  - destruct s as [|c r]; [reflexivity|].
    destruct (p c && forallb q r) eqn:Hok; [|reflexivity].
    exfalso. apply andb_true_iff in Hok as [Hs Hr].
    assert (Hm : m (c :: r) (RSeq [RBol; RCat (RCls p) (RStar (RCls q)); REol])
                   (fun j cs => Some (j, cs)) 0 [] = Some (length (c :: r), [])).
    { change ((if p c then
                 m (c :: r) (RStar (RCls q))
                   (m (c :: r) (RCat REol RNil) (fun j cs => Some (j, cs))) 1 []
               else None) = Some (length (c :: r), [])).
      rewrite Hs. apply m_star_cls_all.
      - simpl. lia.
      - intros x Hx. destruct x as [|x]; [lia|]. simpl.
        destruct (nth_error r x) as [c'|] eqn:E.
        + exists c'. split; [reflexivity|]. rewrite forallb_forall in Hr.
          apply Hr. eapply nth_error_In; exact E.
        + apply nth_error_None in E. simpl in Hx. lia.
      - cbn [m]. rewrite Nat.eqb_refl. reflexivity. }
    unfold test in Ht. rewrite (exec_at0 _ _ _ _ Hm) in Ht. discriminate.
Qed.

Section Ensure.
Context {V : Type}.

Lemma has_set (k d : string) (v : V) mp :
  JsMap.has d (JsMap.set k v mp) = String.eqb k d || JsMap.has d mp.
Proof.
  unfold JsMap.has. induction mp as [|[k0 v0] mp IH]; simpl.
  - now rewrite orb_false_r.
  - destruct (String.eqb k0 k) eqn:E; simpl.
    + apply String.eqb_eq in E; subst k0. now rewrite orb_assoc, orb_diag.
    + rewrite IH. now rewrite !orb_assoc, (orb_comm (String.eqb k0 d)).
Qed.

(** [if (!m.has(k0)) m.set(k0, v)] *)
Lemma get_ensure (k0 k : string) (v : V) mp :
  JsMap.get k (if JsMap.has k0 mp then mp else JsMap.set k0 v mp) =
  if String.eqb k0 k then Some (match JsMap.get k mp with Some x => x | None => v end)
  else JsMap.get k mp.
Proof.
  destruct (String.eqb k0 k) eqn:E.
  - apply String.eqb_eq in E; subst k0. destruct (JsMap.has k mp) eqn:Hh.
    + destruct (has_get k mp Hh) as [x Hx]. now rewrite Hx.
    + now rewrite get_set_eq, (has_get_none k mp Hh).
  - destruct (JsMap.has k0 mp); [reflexivity|].
    apply get_set_neq. now apply String.eqb_neq.
Qed.

Lemma has_ensure (k0 k : string) (v : V) mp :
  JsMap.has k (if JsMap.has k0 mp then mp else JsMap.set k0 v mp) = String.eqb k0 k || JsMap.has k mp.
Proof.
  destruct (JsMap.has k0 mp) eqn:Hh; [|apply has_set].
  destruct (String.eqb k0 k) eqn:E; [|reflexivity].
  apply String.eqb_eq in E; subst. now rewrite Hh.
Qed.

End Ensure.

(** [dirMap.get(d)?.get(k)] *)
Definition lookup2 (d k : string) (dirMap : @JsMap.t (@JsMap.t (list string))) : option (list string) :=
  match JsMap.get d dirMap with Some vm => JsMap.get k vm | None => None end.

Lemma add_dir_usage_has fd r m k0 b d :
  JsMap.has d (add_dir_usage fd r m (k0, b)) = String.eqb fd d || JsMap.has d m.
Proof.
  unfold add_dir_usage. rewrite get_ensure, String.eqb_refl.
  destruct (JsMap.get k0 _); rewrite has_set, has_ensure;
    destruct (String.eqb fd d); reflexivity.
Qed.

Lemma add_dir_usage_lookup fd r m k0 b d k :
  lookup2 d k (add_dir_usage fd r m (k0, b)) =
  if String.eqb fd d && String.eqb k0 k
  then Some (match lookup2 d k m with Some l => l | None => [] end ++ [r])
  else lookup2 d k m.
Proof.
  unfold add_dir_usage, lookup2. rewrite get_ensure, String.eqb_refl.
  set (vm := match JsMap.get fd m with Some x => x | None => [] end).
  rewrite get_ensure, String.eqb_refl.
  set (locs := match JsMap.get k0 vm with Some x => x | None => [] end).
  destruct (String.eqb fd d) eqn:Ed.
  - apply String.eqb_eq in Ed; subst fd. rewrite get_set_eq. simpl andb.
    destruct (String.eqb k0 k) eqn:Ek.
    + apply String.eqb_eq in Ek; subst k0. rewrite get_set_eq.
      unfold locs, vm. destruct (JsMap.get d m); reflexivity.
    + rewrite get_set_neq by now apply String.eqb_neq.
      rewrite get_ensure, Ek. unfold vm. destruct (JsMap.get d m); reflexivity.
  - assert (Hne : fd <> d) by now apply String.eqb_neq.
    rewrite get_set_neq by exact Hne. rewrite get_ensure, Ed. reflexivity.
Qed.

Definition nonempty {A} (l : list A) : bool := match l with [] => false | _ => true end.

Lemma dir_file_has fd r (vars : Scanner.envmap) : forall m d,
  JsMap.has d (fold_left (add_dir_usage fd r) vars m) =
  (String.eqb fd d && nonempty vars) || JsMap.has d m.
Proof.
  induction vars as [|[k0 b0] vars IH]; intros m d; cbn [fold_left].
  - now rewrite andb_false_r.
  - rewrite IH, add_dir_usage_has. simpl.
    destruct (String.eqb fd d), vars; reflexivity.
Qed.

Lemma dir_file_lookup fd r (vars : Scanner.envmap) : forall m d k,
  nodup_keys vars ->
  lookup2 d k (fold_left (add_dir_usage fd r) vars m) =
  if String.eqb fd d && JsMap.has k vars
  then Some (match lookup2 d k m with Some l => l | None => [] end ++ [r])
  else lookup2 d k m.
Proof.
  induction vars as [|[k0 b0] vars IH]; intros m d k Hnd; cbn [fold_left].
  - now rewrite andb_false_r.
  - inversion Hnd as [|? ? Hnot Hnd']; subst.
    rewrite IH by exact Hnd'. rewrite add_dir_usage_lookup.
    unfold JsMap.has at 2. cbn [existsb fst]. fold (JsMap.has k vars).
    destruct (String.eqb fd d) eqn:Ed; simpl andb; [|reflexivity].
    destruct (String.eqb k0 k) eqn:Ek; simpl orb.
    + apply String.eqb_eq in Ek; subst k0.
      assert (Hh : JsMap.has k vars = false)
        by (destruct (JsMap.has k vars) eqn:H; [apply has_in in H; contradiction|reflexivity]).
      now rewrite Hh.
    + reflexivity.
Qed.

Definition in_dir (fs : filesystem) (dirname : string -> string) (d k : string)
  (files : list string) : list string :=
  filter (fun f => String.eqb (dirname f) d && JsMap.has k (fst (scanFile fs f))) files.

Lemma dir_fold_lookup fs dirname relative d k : forall files m,
  lookup2 d k (fold_left (fun dirMap file =>
    fold_left (add_dir_usage (dirname file) (relative file)) (fst (scanFile fs file)) dirMap) files m) =
  match lookup2 d k m, in_dir fs dirname d k files with
  | None, [] => None
  | o, us => Some (match o with Some l => l | None => [] end ++ map relative us)
  end.
Proof.
  unfold in_dir.
  induction files as [|f files IH]; intros m; cbn [fold_left filter].
  - destruct (lookup2 d k m); simpl; [now rewrite app_nil_r|reflexivity].
  - rewrite IH, dir_file_lookup by apply scanFile_nodup.
    destruct (String.eqb (dirname f) d && JsMap.has k (fst (scanFile fs f))); simpl; [|reflexivity].
    destruct (lookup2 d k m); simpl; [now rewrite <- app_assoc|reflexivity].
Qed.

Lemma dir_fold_has fs dirname relative d : forall files m,
  JsMap.has d (fold_left (fun dirMap file =>
    fold_left (add_dir_usage (dirname file) (relative file)) (fst (scanFile fs file)) dirMap) files m) =
  existsb (fun f => String.eqb (dirname f) d && nonempty (fst (scanFile fs f))) files || JsMap.has d m.
Proof.
  induction files as [|f files IH]; intros m; cbn [fold_left existsb]; [reflexivity|].
  rewrite IH, dir_file_has.
  destruct (existsb _ files), (String.eqb _ _ && _), (JsMap.has d m); reflexivity.
Qed.

Lemma group_fold (skipped : list (string * string)) : forall grouped c,
  nodup_keys grouped ->
  let r := fold_left group_step skipped grouped in
  nodup_keys r /\
  JsMap.get c r =
  match JsMap.get c grouped, filter (fun p => String.eqb (snd p) c) skipped with
  | None, [] => None
  | o, l => Some (match o with Some vs => vs | None => [] end ++ map fst l)
  end.
Proof.
  induction skipped as [|[v cat] skipped IH]; intros grouped c Hnd; cbn [fold_left filter].
  - split; [exact Hnd|]. destruct (JsMap.get c grouped); simpl; [now rewrite app_nil_r|reflexivity].
  - set (g1 := if JsMap.has cat grouped then grouped else JsMap.set cat [] grouped).
    assert (Hg1 : nodup_keys g1) by (unfold g1; destruct (JsMap.has cat grouped); [exact Hnd|now apply nodup_set]).
    assert (Hget : exists vs, JsMap.get cat g1 = Some vs /\
                   vs = match JsMap.get cat grouped with Some x => x | None => [] end).
    { unfold g1. rewrite get_ensure, String.eqb_refl. eauto. }
    destruct Hget as [vs [Hvs Evs]].
    assert (Hstep : group_step grouped (v, cat) = JsMap.set cat (vs ++ [v]) g1)
      by (unfold group_step; fold g1; rewrite Hvs; reflexivity).
    rewrite Hstep.
    destruct (IH (JsMap.set cat (vs ++ [v]) g1) c (nodup_set _ _ _ Hg1)) as [Hn Hc].
    split; [exact Hn|]. rewrite Hc. cbn [snd].
    destruct (String.eqb cat c) eqn:E.
    + apply String.eqb_eq in E; subst cat. rewrite get_set_eq, Evs.
      destruct (JsMap.get c grouped); simpl; try rewrite <- app_assoc; reflexivity.
    + rewrite get_set_neq by now apply String.eqb_neq.
      unfold g1. rewrite get_ensure, E. reflexivity.
Qed.

End ExtraFacts.
Import ExtraFacts.

(* ================================================================== *)
(** * Claims *)

(** ** Reconciliation *)

(** C1: in the reconciliation of a manifest scope, a name of the usage map
    [usedVars] that the manifest does not declare and that the allowlist
    lets through (strict mode, or a name outside the known-variable
    registry and the ignore list; the spec filters allowlisted names before
    the algorithm) yields exactly one [missing] issue, of severity [error]
    when [detectFallbacks] is false or the usage has no fallback, and
    [warning] otherwise. *)
Theorem serverless_missing_issue_unique (strictMode detectFallbacks : bool)
  (config : EnvGuardConfig) (sv : ServerlessParser.envmap) (used : usagemap)
  (name : string) (usage : Usage) :
  NoDup (map fst used) -> In (name, usage) used -> JsMap.has name sv = false ->
  strictMode = true \/ (isKnownRuntimeVar name = false /\ shouldIgnoreVar name config = false) ->
  filter (is_missing_for name) (check_serverless strictMode detectFallbacks config sv used) =
  [{| type := missing;
      severity := if negb detectFallbacks || negb (hasFallback usage) then error else warning;
      varName := name;
      details := if negb detectFallbacks || negb (hasFallback usage)
                 then "Used in code but not defined in serverless.yml"
                 else "Used in code with fallback but not defined in serverless.yml";
      locations := Some (usage_locations usage) |}].
Proof.
  intros Hnd Hin Hsv Hsup.
  unfold check_serverless. cbv zeta.
  rewrite !filter_app.
  rewrite (filter_all_false _ (map _ _))
    by (intros i Hi; apply in_map_iff in Hi as [v [<- _]]; reflexivity).
  rewrite !filter_map_comm.
  match goal with
  | |- [] ++ map _ (filter ?p1 (filter _ _)) ++ map _ (filter ?p2 (filter _ _)) = _ =>
      rewrite (filter_ext p1 (fun p => String.eqb (fst p) name)) by (intros [v u]; reflexivity);
      rewrite (filter_ext p2 (fun p => String.eqb (fst p) name)) by (intros [v u]; reflexivity)
  end.
  rewrite !(filter_filter_comm (fun p => String.eqb (fst p) name)).
  rewrite (missingFromServerless_select strictMode config sv used name usage Hnd Hin Hsv Hsup).
  destruct detectFallbacks; cbn; destruct (hasFallback usage) eqn:Hf; cbn; rewrite ?Hf; reflexivity.
Qed.

Lemma serverless_missing_issue_unique_witness :
  filter (is_missing_for "TIMEOUT")
    (check_serverless false true Samples.config0 Samples.declared1 Samples.used1) =
  [{| type := missing; severity := warning; varName := "TIMEOUT";
      details := "Used in code with fallback but not defined in serverless.yml";
      locations := Some ["handler.js"; "lib.js"] |}].
Proof.
  apply (serverless_missing_issue_unique false true Samples.config0 Samples.declared1
           Samples.used1 "TIMEOUT" {| usage_locations := ["handler.js"; "lib.js"]; hasFallback := true |}).
  - vm_compute. repeat constructor; simpl; intuition discriminate.
  - simpl. right; left; reflexivity.
  - reflexivity.
  - right; split; reflexivity.
Defined.

(** C2 (counterexample): in non-strict mode a manifest variable in the
    known-variable registry ([TZ]) that no code uses yields no [unused]
    issue. *)
Lemma serverless_unused_allowlisted_suppressed :
  filter (is_unused_for "TZ")
    (check_serverless false true Samples.config0 Samples.declared1 Samples.used1) = [].
Proof. vm_compute. reflexivity. Qed.

(** C2 (amended): in the reconciliation of a manifest scope, a name the
    manifest declares and no code uses yields exactly one [unused] issue of
    severity [info] when strict mode is on or the name is neither in the
    known-variable registry nor in the ignore list, and no [unused] issue
    otherwise. *)
Theorem serverless_unused_issue (strictMode detectFallbacks : bool)
  (config : EnvGuardConfig) (sv : ServerlessParser.envmap) (used : usagemap)
  (name : string) (e : ServerlessParser.ServerlessEnvEntry) :
  NoDup (map fst sv) -> In (name, e) sv -> JsMap.has name used = false ->
  filter (is_unused_for name) (check_serverless strictMode detectFallbacks config sv used) =
  if strictMode || negb (isKnownRuntimeVar name || shouldIgnoreVar name config)
  then [{| type := unused; severity := info; varName := name;
           details := "Defined in serverless.yml but never used in code";
           locations := None |}]
  else [].
Proof.
  intros Hnd Hin Hused.
  unfold check_serverless. cbv zeta.
  rewrite !filter_app.
  rewrite (filter_all_false _ (map _ (filter _ _)))
    by (intros i Hi; apply in_map_iff in Hi as [[v u] [<- _]]; reflexivity).
  rewrite (filter_all_false _ (map _ (filter _ _)))
    by (intros i Hi; apply in_map_iff in Hi as [[v u] [<- _]]; reflexivity).
  rewrite !app_nil_r, filter_map_comm.
  match goal with
  | |- map _ (filter ?p _) = _ =>
      rewrite (filter_ext p (fun v => String.eqb v name)) by (intros v; reflexivity)
  end.
  rewrite (unusedServerlessVars_select strictMode config sv used name e Hnd Hin Hused).
  destruct (strictMode || _); reflexivity.
Qed.

Lemma serverless_unused_issue_witness :
  filter (is_unused_for "STAGE")
    (check_serverless false true Samples.config0 Samples.declared1 Samples.used1) =
  [{| type := unused; severity := info; varName := "STAGE";
      details := "Defined in serverless.yml but never used in code"; locations := None |}].
Proof.
  apply (serverless_unused_issue false true Samples.config0 Samples.declared1 Samples.used1
           "STAGE" (Samples.entry "STAGE" "dev")).
  - vm_compute. repeat constructor; simpl; intuition discriminate.
  - left; reflexivity.
  - reflexivity.
Defined.

(** ** Extraction *)

(** C3 (failing input): a destructuring without default followed by an
    optional-chaining read of the same name.  The optional-chaining rule
    alone marks [FOO] guarded and the destructuring rule alone marks it
    bare, so the OR of the rule outcomes is guarded; the extractor returns
    [FOO] bare, because rule 4 only sets names that are still absent. *)
Theorem scan_guard_not_or_of_rules :
  Samples.sc_text "const y = process.env?.FOO;" = [("FOO", true)] /\
  Samples.sc_text "const { FOO } = process.env;" = [("FOO", false)] /\
  Samples.sc_text "const { FOO } = process.env; const y = process.env?.FOO;" = [("FOO", false)].
Proof. vm_compute. repeat split. Qed.

(** C5: a file that cannot be read (missing, or [readFileSync] throws)
    yields the empty map, and the failure is reported on the error console
    instead of escaping [scanFile]. *)
Theorem scanFile_unreadable (fs : filesystem) (filePath : string) :
  fs filePath = Missing \/ fs filePath = Unreadable ->
  scanFile fs filePath = ([], [("Error scanning file " ++ filePath ++ ":")%string]).
Proof.
  unfold scanFile. intros [-> | ->]; reflexivity.
Qed.

Lemma scanFile_unreadable_witness :
  scanFile (fun _ => Unreadable) "src/a.js" = ([], ["Error scanning file src/a.js:"]).
Proof. apply scanFile_unreadable. right. reflexivity. Defined.

(** C9: the extracted mapping depends on the file text only: two reads of
    the same text (the same file twice, or two files with equal contents)
    give the same mapping, namely [scan_content] of the text. *)
Theorem scanFile_text_determined (fs1 fs2 : filesystem) (p1 p2 content : string) :
  fs1 p1 = File content -> fs2 p2 = File content ->
  fst (scanFile fs1 p1) = scan_content (list_ascii_of_string content) /\
  fst (scanFile fs1 p1) = fst (scanFile fs2 p2).
Proof.
  unfold scanFile. intros -> ->. split; reflexivity.
Qed.

Lemma scanFile_text_determined_witness :
  fst (scanFile (fun _ => File "x = process.env.A || 1") "a.js")
  = scan_content (list_ascii_of_string "x = process.env.A || 1") /\
  fst (scanFile (fun _ => File "x = process.env.A || 1") "a.js")
  = fst (scanFile (fun _ => File "x = process.env.A || 1") "b.js").
Proof.
  apply (scanFile_text_determined (fun _ => File "x = process.env.A || 1")
           (fun _ => File "x = process.env.A || 1") "a.js" "b.js" "x = process.env.A || 1");
    reflexivity.
Defined.

(** ** Manifest collection *)

(** C6 (counterexample): a nonexistent manifest yields the empty map but
    nothing is logged; neither is anything logged for a document whose
    root is a plain string. *)
Lemma parse_missing_not_logged :
  ServerlessParser.parse (fun _ => None) (fun _ => Missing) "serverless.yml" = ([], []) /\
  ServerlessParser.parse (fun _ => Some (JStr "text")) (fun _ => File "text") "serverless.yml"
  = ([], []).
Proof. split; reflexivity. Qed.

(** C6 (amended): manifest parsing always returns a map: a nonexistent
    file, or a document whose root is not a truthy object, yields the
    empty map with nothing logged; an unreadable file, or a document that
    js-yaml fails to load, yields the empty map and logs one error line
    naming the file. *)
Theorem parse_failures_empty (yaml_load : string -> option jsval) (fs : filesystem)
  (filePath : string) :
  (fs filePath = Missing -> ServerlessParser.parse yaml_load fs filePath = ([], [])) /\
  (fs filePath = Unreadable ->
     ServerlessParser.parse yaml_load fs filePath = ([], [ServerlessParser.parse_error filePath])) /\
  (forall content, fs filePath = File content -> yaml_load content = None ->
     ServerlessParser.parse yaml_load fs filePath = ([], [ServerlessParser.parse_error filePath])) /\
  (forall content doc, fs filePath = File content -> yaml_load content = Some doc ->
     truthy doc = false \/ is_object doc = false ->
     ServerlessParser.parse yaml_load fs filePath = ([], [])).
Proof.
  unfold ServerlessParser.parse.
  split; [intros ->; reflexivity|].
  split; [intros ->; reflexivity|].
  split; [intros c -> ->; reflexivity|].
  intros c doc -> -> [H|H]; rewrite H; [reflexivity|].
  now rewrite orb_true_r.
Qed.

Lemma parse_failures_empty_witness :
  ServerlessParser.parse (fun _ => None) (fun _ => Missing) "a/serverless.yml" = ([], []) /\
  ServerlessParser.parse (fun _ => None) (fun _ => Unreadable) "a/serverless.yml"
  = ([], ["Error parsing a/serverless.yml:"]) /\
  ServerlessParser.parse (fun _ => None) (fun _ => File "a: [") "a/serverless.yml"
  = ([], ["Error parsing a/serverless.yml:"]) /\
  ServerlessParser.parse (fun _ => Some (JStr "text")) (fun _ => File "text") "a/serverless.yml"
  = ([], []).
Proof.
  split; [apply (proj1 (parse_failures_empty (fun _ => None) (fun _ => Missing)
                          "a/serverless.yml")); reflexivity|].
  split; [apply (proj1 (proj2 (parse_failures_empty (fun _ => None) (fun _ => Unreadable)
                                 "a/serverless.yml"))); reflexivity|].
  split; [apply (proj1 (proj2 (proj2 (parse_failures_empty (fun _ => None)
            (fun _ => File "a: [") "a/serverless.yml")))) with (content := "a: [");
          reflexivity|].
  apply (proj2 (proj2 (proj2 (parse_failures_empty (fun _ => Some (JStr "text"))
           (fun _ => File "text") "a/serverless.yml")))) with (content := "text") (doc := JStr "text").
  - reflexivity.
  - reflexivity.
  - right. reflexivity.
Defined.

(** ** The scan command *)

(** C8 (counterexample): a run that finds no .env and no serverless.yml
    reports zero issues with [success = false]. *)
Lemma scan_no_files_not_success :
  scanCommand analyze_spec Samples.options0 Samples.config0 [] [] = Returned false [].
Proof. reflexivity. Qed.

(** C8 (amended): for every analyzer, a run that finds no declaration
    file returns [success = false] with no issues; a run that finds at
    least one returns [success = true] when no issue was found, exits
    with status 1 in CI mode when issues were found, and otherwise
    returns [success = false] with the issues. *)
Theorem scan_outcome analyze (options : ScanOptions) (config : EnvGuardConfig)
  (envFiles : list EnvScope) (serverlessFiles : list ServerlessScope) :
  let issues := allIssues analyze (effectiveStrict options config)
                  (effectiveDetectFallbacks options config) config envFiles serverlessFiles in
  (envFiles = [] -> serverlessFiles = [] ->
     scanCommand analyze options config envFiles serverlessFiles = Returned false []) /\
  (envFiles <> [] \/ serverlessFiles <> [] ->
     (issues = [] -> scanCommand analyze options config envFiles serverlessFiles = Returned true []) /\
     (issues <> [] -> ci options = true ->
        scanCommand analyze options config envFiles serverlessFiles = Exited 1) /\
     (issues <> [] -> ci options = false ->
        scanCommand analyze options config envFiles serverlessFiles = Returned false issues)).
Proof.
  cbv zeta. unfold scanCommand. cbv zeta.
  split; [intros -> ->; reflexivity|].
  intros Hfiles.
  assert (Hm : forall (A : Type) (x y : A),
             match envFiles, serverlessFiles with [], [] => x | _, _ => y end = y).
  { intros A x y. destruct Hfiles as [H|H];
      destruct envFiles, serverlessFiles; congruence. }
  rewrite Hm.
  repeat split.
  - intros ->. reflexivity.
  - intros Hne Hci. destruct (allIssues _ _ _ _ _ _) eqn:E; [congruence|].
    now rewrite Hci.
  - intros Hne Hci. destruct (allIssues _ _ _ _ _ _) eqn:E; [congruence|].
    now rewrite Hci.
Qed.

Lemma scan_outcome_witness :
  scanCommand analyze_spec Samples.options0 Samples.config0 [Samples.env_ok] [] = Returned true [] /\
  scanCommand analyze_spec Samples.options0 Samples.config0 [Samples.env_missing] [] = Exited 1.
Proof.
  split.
  - apply (scan_outcome analyze_spec Samples.options0 Samples.config0 [Samples.env_ok] []).
    + left. discriminate.
    + vm_compute. reflexivity.
  - apply (scan_outcome analyze_spec Samples.options0 Samples.config0 [Samples.env_missing] []).
    + left. discriminate.
    + vm_compute. discriminate.
    + reflexivity.
Defined.

(** C4 (counterexample): when the provider-level value of [BAZ] is a
    mapping with a [toString] key, [String(value)] throws, the exception is
    caught, and the map returned holds no [BAZ], although the function
    level declares it too. *)
Lemma parse_provider_toString_drops :
  JsMap.get "BAZ" (fst (ServerlessParser.parse Samples.load_toString
                          (fun _ => File Samples.manifest_toString) "serverless.yml")) = None.
Proof. vm_compute. reflexivity. Qed.

(** C4 (amended): when the provider-level environment block is an object
    whose values all convert to strings, a valid name declared there is
    collected with the string of its provider-level value, whatever the
    function-level blocks declare (first-wins). *)
Theorem parse_provider_first_wins (yaml_load : string -> option jsval) (fs : filesystem)
  (filePath content : string) (doc : jsval) (penv : list (string * jsval))
  (name : string) (value : jsval) (valueStr : string) :
  fs filePath = File content -> yaml_load content = Some doc ->
  get (get doc "provider") "environment" = JObj penv ->
  NoDup (map fst penv) -> In (name, value) penv ->
  ServerlessParser.isValidEnvVarName name = true ->
  (forall k v, In (k, v) penv -> js_String v <> None) ->
  js_String value = Some valueStr ->
  option_map ServerlessParser.valueExpression
    (JsMap.get name (fst (ServerlessParser.parse yaml_load fs filePath))) = Some valueStr.
Proof.
  intros Hfs Hload Henv Hnd Hin Hval Hconv Hs.
  assert (Hdoc : exists ps, doc = JObj ps)
    by (destruct doc; simpl in Henv; try discriminate; eauto).
  destruct Hdoc as [ps ->].
  destruct (ParserFacts.provider_loop_done filePath penv [] Hnd Hconv) as [mp [Hrun Hget]].
  specialize (Hget name value valueStr Hin Hval Hs).
  unfold ServerlessParser.parse. rewrite Hfs, Hload. simpl negb. cbn iota beta zeta.
  rewrite Henv. simpl. rewrite Hrun.
  destruct (truthy _ && is_object _); [|exact Hget].
  destruct (JsMap.get name mp) as [e|] eqn:He; [|discriminate].
  pose proof (ParserFacts.functions_loop_keeps filePath
                (entries (get (JObj ps) "functions")) mp name e He) as Hk.
  destruct (ServerlessParser.functions_loop _ _ _); simpl in *; rewrite Hk; exact Hget.
Qed.

Lemma parse_provider_first_wins_witness :
  option_map ServerlessParser.valueExpression
    (JsMap.get "BAZ" (fst (ServerlessParser.parse Samples.load_C
                             (fun _ => File Samples.manifest_C) "serverless.yml")))
  = Some "provider-value".
Proof.
  apply (parse_provider_first_wins Samples.load_C (fun _ => File Samples.manifest_C)
           "serverless.yml" Samples.manifest_C Samples.doc_C
           [("BAZ", JStr "provider-value")] "BAZ" (JStr "provider-value") "provider-value").
  - reflexivity.
  - vm_compute. reflexivity.
  - reflexivity.
  - repeat constructor. simpl. tauto.
  - left. reflexivity.
  - vm_compute. reflexivity.
  - intros k v [Heq|[]]. injection Heq as <- <-. discriminate.
  - reflexivity.
Defined.

(** ** Naming invariant and [const]-only destructuring *)

(** C7: every key of the map returned by [scanFile] matches the source's
    pattern [/^[A-Z_][A-Z0-9_]*$/] (case-sensitive), and every key of the
    map returned by [ServerlessParser.parse] passes [isValidEnvVarName],
    i.e. matches the same pattern under the [i] flag; a name that does not
    match never appears in either map. *)
Theorem extracted_names_match_pattern :
  (forall (fs : filesystem) (filePath k : string) (v : bool),
     In (k, v) (fst (scanFile fs filePath)) ->
     test validNamePattern (list_ascii_of_string k) = true) /\
  (forall (yaml_load : string -> option jsval) (fs : filesystem) (filePath k : string)
          (e : ServerlessParser.ServerlessEnvEntry),
     In (k, e) (fst (ServerlessParser.parse yaml_load fs filePath)) ->
     ServerlessParser.isValidEnvVarName k = true).
Proof.
  split.
  - intros fs filePath k v H. unfold scanFile in H.
    destruct (fs filePath) as [| |content]; simpl in H; try contradiction.
    exact (scan_content_keys_valid _ k v H).
  - intros yaml_load fs filePath k e H. exact (parse_valid yaml_load fs filePath k e H).
Qed.

Lemma extracted_names_match_pattern_witness :
  In ("API_KEY", true) (fst (scanFile (Samples.fs_const "const k = process.env.API_KEY || 'x';") "a.js")) /\
  test validNamePattern (list_ascii_of_string "API_KEY") = true /\
  ServerlessParser.isValidEnvVarName "BAZ" = true.
Proof.
  split; [vm_compute; left; reflexivity|]. split.
  - apply (proj1 extracted_names_match_pattern
             (Samples.fs_const "const k = process.env.API_KEY || 'x';") "a.js" "API_KEY" true).
    vm_compute. left. reflexivity.
  - apply (proj2 extracted_names_match_pattern Samples.load_C (Samples.fs_const Samples.manifest_C)
             "serverless.yml" "BAZ" (Samples.entry "BAZ" "provider-value")).
    vm_compute. left. reflexivity.
Defined.




(* ================================================================== *)
(** * Further properties of the code *)

(** X1: [getRuntimeVarCategory] returns a category (not [null]) exactly
    for the names [isKnownRuntimeVar] accepts. *)
Theorem getRuntimeVarCategory_known varName :
  getRuntimeVarCategory varName <> None <-> isKnownRuntimeVar varName = true.
Proof. apply category_known. Qed.

(** X2: the skipped runtime variables of a manifest scope.  Strict mode
    skips nothing; otherwise every used, undeclared name that is a known
    runtime variable or in the ignore list is listed, and every listed
    name is used, undeclared and carries ["Custom (from config)"] when it
    is in the ignore list, its [getRuntimeVarCategory] otherwise. *)
Theorem skippedRuntimeVars_spec strictMode config sv used :
  (strictMode = true -> skippedRuntimeVars strictMode config sv used = []) /\
  (forall k u, In (k, u) used -> JsMap.has k sv = false -> strictMode = false ->
     (isKnownRuntimeVar k || shouldIgnoreVar k config) = true ->
     In k (map fst (skippedRuntimeVars strictMode config sv used))) /\
  (forall k c, In (k, c) (skippedRuntimeVars strictMode config sv used) ->
     strictMode = false /\ JsMap.has k sv = false /\ In k (map fst used) /\
     ((shouldIgnoreVar k config = true /\ c = "Custom (from config)") \/
      (shouldIgnoreVar k config = false /\ getRuntimeVarCategory k = Some c))).
Proof.
  unfold skippedRuntimeVars. split; [|split].
  - intros ->. simpl. induction used as [|[k u] used IH]; simpl; [reflexivity|].
    destruct (negb _); exact IH.
  - intros k u Hin Hsv Hs Hk. subst strictMode.
    destruct (skipped_category config k Hk) as [c [Hc _]].
    apply in_map_iff. exists (k, c). split; [reflexivity|].
    apply in_flat_map. exists (k, u). split; [exact Hin|].
    cbv zeta. rewrite Hsv. simpl negb. rewrite Hk. simpl andb. cbv iota.
    rewrite Hc. left; reflexivity.
  - intros k c H. apply in_flat_map in H as [[k0 u0] [Hin H]].
    cbv zeta in H.
    destruct (JsMap.has k0 sv) eqn:Hsv; simpl negb in H; cbv iota in H; [contradiction|].
    destruct (negb strictMode && (isKnownRuntimeVar k0 || shouldIgnoreVar k0 config)) eqn:Hb;
      [|contradiction].
    apply andb_true_iff in Hb as [Hs Hk]. apply negb_true_iff in Hs.
    destruct (skipped_category config k0 Hk) as [c0 [Hc Hcat]].
    rewrite Hc in H. destruct H as [H|[]]. injection H as <- <-.
    split; [exact Hs|]. split; [exact Hsv|]. split; [|exact Hcat].
    apply in_map_iff. exists (k0, u0). auto.
Qed.
Lemma skippedRuntimeVars_spec_witness :
  In "AWS_REGION" (map fst (skippedRuntimeVars false Samples.config0 Samples.declared1 Samples.used1)).
Proof.
  apply (proj1 (proj2 (skippedRuntimeVars_spec false Samples.config0 Samples.declared1 Samples.used1))
           "AWS_REGION" {| usage_locations := ["handler.js"]; hasFallback := false |}).
  - simpl. right; right; left; reflexivity.
  - reflexivity.
  - reflexivity.
  - vm_compute. reflexivity.
Defined.

(** X3: the skipped variables of a .env scope.  Strict mode skips
    nothing; otherwise every used name that is a known runtime variable or
    in the ignore list is listed, and every listed name is used and
    carries ["Custom (from config)"] when it is in the ignore list, its
    [getRuntimeVarCategory] otherwise. *)
Theorem skippedVarsInScope_spec strictMode config used :
  (strictMode = true -> skippedVarsInScope strictMode config used = []) /\
  (forall k u, In (k, u) used -> strictMode = false ->
     (isKnownRuntimeVar k || shouldIgnoreVar k config) = true ->
     In k (map fst (skippedVarsInScope strictMode config used))) /\
  (forall k c, In (k, c) (skippedVarsInScope strictMode config used) ->
     strictMode = false /\ In k (map fst used) /\
     ((shouldIgnoreVar k config = true /\ c = "Custom (from config)") \/
      (shouldIgnoreVar k config = false /\ getRuntimeVarCategory k = Some c))).
Proof.
  unfold skippedVarsInScope. split; [|split].
  - intros ->. simpl. induction used as [|[k u] used IH]; simpl; [reflexivity|]. exact IH.
  - intros k u Hin Hs Hk. subst strictMode.
    destruct (skipped_category config k Hk) as [c [Hc _]].
    apply in_map_iff. exists (k, c). split; [reflexivity|].
    apply in_flat_map. exists (k, u). split; [exact Hin|].
    cbv zeta. simpl orb.
    replace (negb (isKnownRuntimeVar k) && negb (shouldIgnoreVar k config)) with false
      by (rewrite <- negb_orb, Hk; reflexivity).
    cbv iota. rewrite Hc. left; reflexivity.
  - intros k c H. apply in_flat_map in H as [[k0 u0] [Hin H]].
    cbv zeta in H.
    destruct (strictMode || negb (isKnownRuntimeVar k0) && negb (shouldIgnoreVar k0 config)) eqn:Hb;
      [contradiction|].
    apply orb_false_iff in Hb as [Hs Hk].
    rewrite <- negb_orb in Hk. apply negb_false_iff in Hk.
    destruct (skipped_category config k0 Hk) as [c0 [Hc Hcat]].
    rewrite Hc in H. destruct H as [H|[]]. injection H as <- <-.
    split; [exact Hs|]. split; [|exact Hcat].
    apply in_map_iff. exists (k0, u0). auto.
Qed.
Lemma skippedVarsInScope_spec_witness :
  In "AWS_REGION" (map fst (skippedVarsInScope false Samples.config0 Samples.used1)).
Proof.
  apply (proj1 (proj2 (skippedVarsInScope_spec false Samples.config0 Samples.used1))
           "AWS_REGION" {| usage_locations := ["handler.js"]; hasFallback := false |}).
  - simpl. right; right; left; reflexivity.
  - reflexivity.
  - vm_compute. reflexivity.
Defined.

(** X4: [scanDirectoryForVars] builds a map with distinct names; a name
    is present exactly when some scanned file reads it, its locations are
    the relative paths of those files in scan order, and it has a fallback
    exactly when one of those files reads it with a fallback. *)
Theorem scanDirectoryForVars_spec fs relative files :
  NoDup (map fst (scanDirectoryForVars fs relative files)) /\
  forall k, JsMap.get k (scanDirectoryForVars fs relative files) =
  match uses fs k files with
  | [] => None
  | us => Some {| usage_locations := map relative us;
                  hasFallback := existsb (fun f => flag (fst (scanFile fs f)) k) us |}
  end.
Proof. split; [apply scanDirectoryForVars_nodup|intros k; apply dir_get]. Qed.

(** X5: [CodeScanner.scan] lists for a name the code files that read it,
    then each manifest declaring it as ["<path> (serverless config)"]; its
    fallback flag comes from the code files only. *)
Theorem scan_get yaml_load fs relative files serverlessFiles k :
  JsMap.get k (scan yaml_load fs relative files serverlessFiles) =
  match uses fs k files ++ declares yaml_load fs k serverlessFiles with
  | [] => None
  | _ => Some {| usage_locations := map relative (uses fs k files) ++
                   map (fun f => relative f ++ " (serverless config)")%string
                       (declares yaml_load fs k serverlessFiles);
                 hasFallback := existsb (fun f => flag (fst (scanFile fs f)) k) (uses fs k files) |}
  end.
Proof.
  unfold scan. cbv zeta. rewrite decl_fold_get.
  fold (scanDirectoryForVars fs relative files). rewrite dir_get.
  destruct (uses fs k files) as [|f us] eqn:Hu; simpl.
  - rewrite decl_fold_none. destruct (declares yaml_load fs k serverlessFiles); reflexivity.
  - rewrite decl_fold_some. reflexivity.
Qed.

(** X6: the [excludePatterns] of a [CodeScanner] start with
    [node_modules] and [.git], have no duplicates and hold exactly those
    two and the given patterns; so its [glob] ignore list always holds
    [**/node_modules/**] and [**/.git/**]. *)
Theorem excludePatterns_of_spec excludePatterns :
  (exists rest, excludePatterns_of excludePatterns = ALWAYS_EXCLUDE ++ rest) /\
  NoDup (excludePatterns_of excludePatterns) /\
  (forall p, In p (excludePatterns_of excludePatterns) <-> In p ALWAYS_EXCLUDE \/ In p excludePatterns) /\
  In "**/node_modules/**" (ignorePatterns (excludePatterns_of excludePatterns)) /\
  In "**/.git/**" (ignorePatterns (excludePatterns_of excludePatterns)).
Proof.
  unfold excludePatterns_of.
  change (set_of_list (ALWAYS_EXCLUDE ++ excludePatterns)) with
    (fold_left (fun acc x => if existsb (String.eqb x) acc then acc else acc ++ [x])
       excludePatterns ["node_modules"; ".git"]).
  destruct (set_of_list_fold excludePatterns ["node_modules"; ".git"]) as [[rest Hp] [Hn Hi]].
  cbv zeta in Hp, Hn, Hi. rewrite Hp.
  split; [exists rest; reflexivity|].
  split; [rewrite <- Hp; apply Hn; repeat constructor; simpl; intuition discriminate|].
  split; [intros p; rewrite <- Hp, Hi; simpl; tauto|].
  split; apply in_map_iff; [exists "node_modules"|exists ".git"]; split; simpl; auto.
Qed.

(** X7: the private [isReference] holds exactly when the value contains
    one of the seven reference prefixes ([${ssm:], [${aws:reference],
    [${file(], [${self:custom.], [${opt:], [${env:], [${cf:]). *)
Theorem isReference_method_spec value :
  ServerlessParser.isReference_method value = true <->
  exists p pre post, In p reference_literals /\ value = (pre ++ p ++ post)%string.
Proof.
  unfold ServerlessParser.isReference_method.
  change ServerlessParser.referencePatterns with (map RStr reference_literals).
  rewrite existsb_exists. split.
  - intros [r [Hr Ht]]. apply in_map_iff in Hr as [p [<- Hp]].
    apply test_str in Ht as [pre [post Hv]].
    exists p, (string_of_list_ascii pre), (string_of_list_ascii post). split; [exact Hp|].
    rewrite <- (string_of_list_ascii_of_string value), Hv.
    rewrite <- (list_ascii_of_string_of_list_ascii pre) at 1.
    rewrite <- (list_ascii_of_string_of_list_ascii post) at 1.
    rewrite <- !list_ascii_app, string_of_list_ascii_of_string. reflexivity.
  - intros [p [pre [post [Hp ->]]]]. exists (RStr p). split; [now apply in_map|].
    apply test_str. exists (list_ascii_of_string pre), (list_ascii_of_string post).
    now rewrite !list_ascii_app.
Qed.

(** X8: every entry [parse] returns is stored under a name accepted by
    [isValidEnvVarName] and equal to its [key]; its [isReference] is
    [isReference] of its [valueExpression]; its [source] is the manifest
    path, or that path followed by [" (function: <name>)"]. *)
Theorem parse_entries_ok yaml_load fs filePath :
  forall k e, In (k, e) (fst (ServerlessParser.parse yaml_load fs filePath)) ->
  ServerlessParser.isValidEnvVarName k = true /\ entry_ok filePath k e.
Proof.
  intros k e Hin. split; [exact (parse_valid yaml_load fs filePath k e Hin)|].
  revert k e Hin. change (all_ok filePath (fst (ServerlessParser.parse yaml_load fs filePath))).
  assert (H0 : all_ok filePath []) by (intros k e []).
  unfold ServerlessParser.parse.
  destruct (fs filePath) as [| |content]; simpl; try exact H0.
  destruct (yaml_load content) as [doc|]; simpl; [|exact H0].
  destruct (negb (truthy doc) || negb (is_object doc)); simpl; [exact H0|].
  match goal with
  | |- context [if ?c then ServerlessParser.provider_loop ?fp ?es [] else ServerlessParser.Done []] =>
      pose proof (provider_loop_ok fp es [] H0) as Hp; destruct c
  end.
  - destruct (ServerlessParser.provider_loop _ _ _) as [mp|mp]; simpl in *; [|exact Hp].
    destruct (truthy _ && is_object _); [|exact Hp].
    pose proof (functions_loop_ok filePath (entries (get doc "functions")) mp Hp) as Hf.
    destruct (ServerlessParser.functions_loop _ _ _); exact Hf.
  - simpl.
    destruct (truthy _ && is_object _); [|exact H0].
    pose proof (functions_loop_ok filePath (entries (get doc "functions")) [] H0) as Hf.
    destruct (ServerlessParser.functions_loop _ _ _); exact Hf.
Qed.
Lemma parse_entries_ok_witness :
  ServerlessParser.isValidEnvVarName "BAZ" = true /\
  entry_ok "serverless.yml" "BAZ"
    {| ServerlessParser.key := "BAZ"; ServerlessParser.valueExpression := "provider-value";
       ServerlessParser.isReference := false; ServerlessParser.source := "serverless.yml" |}.
Proof.
  apply (parse_entries_ok Samples.load_C (Samples.fs_const Samples.manifest_C) "serverless.yml").
  vm_compute. left. reflexivity.
Defined.

(** X9: every issue of a manifest scope is either an [unused] [info]
    issue without locations for a declared, unused name, or a [missing]
    issue for a used, undeclared name, of severity [error], or [warning]
    only when fallback detection is on; so no name is reported both
    missing and unused.  In non-strict mode no issue names a known runtime
    variable or an ignored name. *)
Theorem check_serverless_issue_shape strictMode detectFallbacks config sv used i :
  In i (check_serverless strictMode detectFallbacks config sv used) ->
  ((type i = unused /\ severity i = info /\ locations i = None /\
    JsMap.has (varName i) sv = true /\ JsMap.has (varName i) used = false) \/
   (type i = missing /\ JsMap.has (varName i) sv = false /\ JsMap.has (varName i) used = true /\
    (severity i = error \/ (severity i = warning /\ detectFallbacks = true)))) /\
  (strictMode = false ->
   isKnownRuntimeVar (varName i) = false /\ shouldIgnoreVar (varName i) config = false).
Proof.
  unfold check_serverless. cbv zeta. rewrite !in_app_iff.
  intros [H|[H|H]]; apply in_map_iff in H.
  - destruct H as [v [<- Hv]]. apply in_flat_map in Hv as [[k e] [Hin Hv]].
    destruct (JsMap.has k used) eqn:Hu; simpl in Hv; [contradiction|].
    destruct (strictMode || negb (isKnownRuntimeVar k || shouldIgnoreVar k config)) eqn:Hs;
      [|contradiction].
    destruct Hv as [<-|[]]. simpl. split.
    + left. repeat split; [|exact Hu]. apply has_in. apply in_map_iff. now exists (k, e).
    + intros ->. simpl in Hs. apply negb_true_iff, orb_false_iff in Hs. exact Hs.
  - destruct H as [[v u] [<- Hv]]. apply filter_In in Hv as [Hv _].
    apply in_flat_map in Hv as [[k u0] [Hin Hv]].
    destruct (JsMap.has k sv) eqn:Hsv; simpl in Hv; [contradiction|].
    destruct (negb strictMode && (isKnownRuntimeVar k || shouldIgnoreVar k config)) eqn:Hs;
      [contradiction|].
    destruct Hv as [Hv|[]]. injection Hv as <- <-. simpl. split.
    + right. repeat split; [exact Hsv| |now left]. apply has_in. apply in_map_iff. now exists (k, u0).
    + intros ->. simpl in Hs. apply orb_false_iff in Hs. exact Hs.
  - destruct H as [[v u] [<- Hv]]. apply filter_In in Hv as [Hv Hd].
    apply andb_true_iff in Hd as [Hd _].
    apply in_flat_map in Hv as [[k u0] [Hin Hv]].
    destruct (JsMap.has k sv) eqn:Hsv; simpl in Hv; [contradiction|].
    destruct (negb strictMode && (isKnownRuntimeVar k || shouldIgnoreVar k config)) eqn:Hs;
      [contradiction|].
    destruct Hv as [Hv|[]]. injection Hv as <- <-. simpl. split.
    + right. repeat split; [exact Hsv| |now right]. apply has_in. apply in_map_iff. now exists (k, u0).
    + intros ->. simpl in Hs. apply orb_false_iff in Hs. exact Hs.
Qed.
Lemma check_serverless_issue_shape_witness :
  JsMap.has "TIMEOUT" Samples.declared1 = false /\ JsMap.has "TIMEOUT" Samples.used1 = true /\
  isKnownRuntimeVar "TIMEOUT" = false.
Proof.
  assert (Hin : In {| type := missing; severity := warning; varName := "TIMEOUT";
                      details := "Used in code with fallback but not defined in serverless.yml";
                      locations := Some ["handler.js"; "lib.js"] |}
                   (check_serverless false true Samples.config0 Samples.declared1 Samples.used1))
    by (vm_compute; repeat first [left; reflexivity | right]).
  destruct (check_serverless_issue_shape false true Samples.config0 Samples.declared1
              Samples.used1 _ Hin) as [[[Ht _]|[_ [Hsv [Hu _]]]] Hs].
  - discriminate Ht.
  - split; [exact Hsv|]. split; [exact Hu|]. exact (proj1 (Hs eq_refl)).
Defined.

(** X10: [isValidEnvVarName] accepts exactly the non-empty names whose
    first character is a letter or [_] and whose other characters are
    letters, digits or [_] (either case). *)
Theorem isValidEnvVarName_spec k :
  ServerlessParser.isValidEnvVarName k =
  match list_ascii_of_string k with
  | [] => false
  | c :: r => name_start_ci c && forallb name_char_ci r
  end.
Proof. apply test_anchored_name. Qed.

(** X11: the ignore globs of the scanner [scanCommand] creates and those
    of [scanDirectoryForVars] are the same set: the four default
    directories and the configured [exclude] patterns. *)
Theorem scanner_ignore_agrees config g :
  In g (ignorePatterns (excludePatterns_of (scanCommand_excludePatterns config))) <->
  In g (scanDirectory_ignore (exclude config)).
Proof.
  destruct (set_of_list_fold (ALWAYS_EXCLUDE ++ scanCommand_excludePatterns config) []) as [_ [_ Hi]].
  cbv zeta in Hi. unfold ignorePatterns, scanDirectory_ignore, excludePatterns_of, set_of_list.
  rewrite in_map_iff, in_app_iff, in_map_iff. split.
  - intros [p [<- Hp]]. apply Hi in Hp as [[]|Hp].
    unfold scanCommand_excludePatterns, ALWAYS_EXCLUDE in Hp. simpl in Hp.
    destruct Hp as [<-|[<-|[<-|[<-|[<-|[<-|Hp]]]]]]; try (left; simpl; tauto).
    right. exists p. auto.
  - intros [Hd|[p [<- Hp]]].
    + unfold defaultIgnore in Hd. simpl in Hd.
      destruct Hd as [<-|[<-|[<-|[<-|[]]]]];
        [exists "node_modules"|exists "dist"|exists "build"|exists ".git"];
        (split; [reflexivity|]); apply Hi; right; simpl; tauto.
    + exists p. split; [reflexivity|]. apply Hi. right.
      unfold scanCommand_excludePatterns. rewrite !in_app_iff. tauto.
Qed.

(** X12: [scanByDirectory] has an entry for a directory exactly when a
    file of that directory reads some variable; under it a name maps to
    the relative paths of the files of that directory that read it, in
    scan order. *)
Theorem scanByDirectory_spec fs dirname relative files d k :
  JsMap.has d (scanByDirectory fs dirname relative files) =
    existsb (fun f => String.eqb (dirname f) d && nonempty (fst (scanFile fs f))) files /\
  lookup2 d k (scanByDirectory fs dirname relative files) =
    match in_dir fs dirname d k files with
    | [] => None
    | us => Some (map relative us)
    end.
Proof.
  unfold scanByDirectory. split.
  - rewrite dir_fold_has. apply orb_false_r.
  - rewrite dir_fold_lookup. change (lookup2 d k []) with (@None (list string)).
    destruct (in_dir fs dirname d k files); reflexivity.
Qed.

(** X13: the grouping of the skipped-variable log has each category once,
    and lists under it the names of that category in their order. *)
Theorem groupByCategory_spec skipped c :
  nodup_keys (groupByCategory skipped) /\
  JsMap.get c (groupByCategory skipped) =
  match filter (fun p => String.eqb (snd p) c) skipped with
  | [] => None
  | l => Some (map fst l)
  end.
Proof.
  destruct (group_fold skipped [] c ltac:(constructor)) as [Hn Hc].
  split; [exact Hn|]. unfold groupByCategory. rewrite Hc. simpl.
  destruct (filter _ skipped); reflexivity.
Qed.

(** X14: [/^[A-Z_][A-Z0-9_]*$/], which filters destructured names,
    accepts exactly the non-empty texts of an upper-case letter or [_]
    followed by upper-case letters, digits or [_]. *)
Theorem validNamePattern_spec s : test validNamePattern s = name_ok s.
Proof.
  unfold validNamePattern, env_name. rewrite test_anchored_name. destruct s; reflexivity.
Qed.
